(** * ResNet-50 image classification pipeline: preprocessing and postprocessing

    A shallow embedding of [src/lib/model/image.ts] and [src/lib/model/model.ts]
    (the image-to-tensor transform, the model-bytes cache, the inference call,
    softmax and ranking), and the properties of the specification proved or
    refuted on it.

    Numbers.  A JavaScript [number] is modelled by [number] below: the three
    non-finite IEEE-754 values are kept apart ([NaN], [NegInf], [PosInf]) with
    the propagation rules of ECMAScript, and the arithmetic of finite values is
    exact arithmetic on the reals.  Rounding, overflow, underflow and the sign of
    zero are not modelled; a [Float32Array] element holds the value written to
    it.  Every statement below about finite values is a statement about the
    unrounded computation. *)

From Stdlib Require Import Reals Lra Lia ZArith.
From stdpp Require Import base option list sorting strings.

Set Default Proof Using "Type".

(** ** JavaScript numbers *)

Inductive number : Type :=
  | NaN
  | NegInf
  | PosInf
  | Fin (x : R).

Module Num.

Definition is_finite (a : number) : Prop :=
  match a with Fin _ => True | _ => False end.

Definition of_Z (z : Z) : number := Fin (IZR z).

(** Unary minus. *)
Definition neg (a : number) : number :=
  match a with
  | NaN => NaN
  | NegInf => PosInf
  | PosInf => NegInf
  | Fin x => Fin (- x)
  end.

(** [a + b] (ECMAScript Number::add). *)
Definition add (a b : number) : number :=
  match a, b with
  | NaN, _ | _, NaN => NaN
  | PosInf, NegInf | NegInf, PosInf => NaN
  | PosInf, _ | _, PosInf => PosInf
  | NegInf, _ | _, NegInf => NegInf
  | Fin x, Fin y => Fin (x + y)
  end.

(** [a - b] (ECMAScript Number::subtract: [a + (-b)]). *)
Definition sub (a b : number) : number := add a (neg b).

(** Sign of a finite value, deciding the sign of an infinite result. *)
Definition signed_inf (x : R) : number :=
  if Rlt_dec x 0 then NegInf else PosInf.

(** [a / b] (ECMAScript Number::divide); a zero divisor is taken as [+0]. *)
Definition div (a b : number) : number :=
  match a, b with
  | NaN, _ | _, NaN => NaN
  | (PosInf | NegInf), (PosInf | NegInf) => NaN
  | PosInf, Fin y => signed_inf y
  | NegInf, Fin y => neg (signed_inf y)
  | Fin x, (PosInf | NegInf) => Fin 0
  | Fin x, Fin y =>
      if Req_dec_T y 0
      then (if Req_dec_T x 0 then NaN else signed_inf x)
      else Fin (x / y)
  end.

(** [Math.exp]. *)
Definition exp (a : number) : number :=
  match a with
  | NaN => NaN
  | NegInf => Fin 0
  | PosInf => PosInf
  | Fin x => Fin (Rtrigo_def.exp x)
  end.

(** [a < b], the comparison of two numbers; false when either is [NaN]. *)
Definition ltb (a b : number) : bool :=
  match a, b with
  | NaN, _ | _, NaN => false
  | _, NegInf => false
  | NegInf, _ => true
  | PosInf, _ => false
  | Fin _, PosInf => true
  | Fin x, Fin y => if Rlt_dec x y then true else false
  end.

(** [a >= b] as JavaScript evaluates it: false when either is [NaN]. *)
Definition ge (a b : number) : Prop :=
  match a, b with
  | NaN, _ | _, NaN => False
  | _, NegInf => True
  | NegInf, _ => False
  | PosInf, _ => True
  | Fin _, PosInf => False
  | Fin x, Fin y => (y <= x)%R
  end.

(** One step of [Math.max]: [NaN] is absorbing, otherwise the larger one. *)
Definition max2 (a b : number) : number :=
  match a, b with
  | NaN, _ | _, NaN => NaN
  | _, _ => if ltb a b then b else a
  end.

(** [Math.max(...args)]: [-Infinity] for no argument. *)
Definition Math_max (args : list number) : number :=
  foldl max2 NegInf args.

End Num.

(** ** JavaScript arrays *)

(** [Array.from({ length: n }, (_, i) => f i)]. *)
Definition Array_from {A} (n : nat) (f : nat → A) : list A :=
  f <$> seq 0 n.

(** [xs.forEach((x, i) => body)] where the body updates a state [St];
    [forEach_from k] numbers the elements from [k]. *)
Fixpoint forEach_from {A St} (k : nat) (body : A → nat → St → St)
    (xs : list A) (s : St) : St :=
  match xs with
  | [] => s
  | x :: xs' => forEach_from (S k) body xs' (body x k s)
  end.

Definition forEach {A St} (body : A → nat → St → St) (xs : list A) (s : St) : St :=
  forEach_from 0 body xs s.

(** [new Float32Array(n)]: [n] zeros. *)
Definition Float32Array_new (n : nat) : list number :=
  replicate n (Fin 0).

(** The conversion applied by a store into a [Float32Array]; on unrounded
    numbers it keeps the value. *)
Definition toFloat32 (v : number) : number := v.

(** [xs.map((x, i) => f x i)]. *)
Definition map_indexed {A B} (f : A → nat → B) (xs : list A) : list B :=
  imap (λ i x, f x i) xs.

(** [xs.reduce((acc, x) => f acc x, init)]. *)
Definition reduce {A B} (f : B → A → B) (init : B) (xs : list A) : B :=
  foldl f init xs.

(** [xs.slice(0, n)]. *)
Definition slice0 {A} (n : nat) (xs : list A) : list A := take n xs.

(** ** Promises, exceptions and the state of the module *)

(** What a rejected promise or a [throw] carries. *)
Inductive error : Type :=
  | Error (message : string)   (* [new Error(message)] raised by model.ts *)
  | Thrown (code : nat).       (* a failure raised by Jimp, fetch or onnxruntime *)

(** An awaited promise: resolved with a value or rejected with an error. *)
Inductive outcome (A : Type) : Type :=
  | Resolved (a : A)
  | Rejected (e : error).
Arguments Resolved {A} a.
Arguments Rejected {A} e.

(** The module-level variable of model.ts together with a record of the calls
    made to the outside: how many times the model file was fetched, the model
    bytes handed to each [InferenceSession.create] (latest first), and how many
    times the clock was read. *)
Record World : Type := mkWorld {
  cachedModelData : option (list Z);   (* [Uint8Array | null] *)
  fetches : nat;
  sessions : list (list Z);
  clock_reads : nat;
}.

(** The state of a freshly loaded module. *)
Definition initial_world : World :=
  {| cachedModelData := None; fetches := 0; sessions := []; clock_reads := 0 |}.

(** An [async] function: it reads and updates the world and settles. *)
Definition M (A : Type) : Type := World → outcome A * World.

Global Instance M_ret : MRet M := λ A a w, (Resolved a, w).

Global Instance M_bind : MBind M := λ A B k m w,
  match m w with
  | (Resolved a, w') => k a w'
  | (Rejected e, w') => (Rejected e, w')
  end.

Definition throw {A} (e : error) : M A := λ w, (Rejected e, w).

(** [try { body } catch (error) { handler error }]. *)
Definition try_catch {A} (body : M A) (handler : error → M A) : M A := λ w,
  match body w with
  | (Resolved a, w') => (Resolved a, w')
  | (Rejected e, w') => handler e w'
  end.

(** Settling an already computed outcome (awaiting a collaborator's promise). *)
Definition settle {A} (o : outcome A) : M A := λ w, (o, w).

(** Reading the module state. *)
Definition get_world : M World := λ w, (Resolved w, w).

(** ** The Jimp image library, as far as image.ts uses it *)

(** A decoded image: [bitmap.width], [bitmap.height] and the RGBA bytes of
    [bitmap.data], row by row, four bytes a pixel. *)
Record JimpImage : Type := mkImage {
  bitmap_width : nat;
  bitmap_height : nat;
  bitmap_data : list Z;
}.

Record RGBA : Type := mkRGBA { r : Z; g : Z; b : Z; a : Z }.

(** [buffer.readUInt32BE(offset)]; a byte outside the buffer reads as 0 here
    (Node raises a RangeError, which [getPixelColor] cannot reach on a bitmap
    that has at least one pixel). *)
Definition readUInt32BE (data : list Z) (offset : nat) : Z :=
  let byte k := default 0%Z (data !! (offset + k)) in
  (byte 0%nat * 2 ^ 24 + byte 1%nat * 2 ^ 16 + byte 2%nat * 2 ^ 8 + byte 3%nat)%Z.

(** [image.getPixelIndex(x, y)] with the default edge handling (extend):
    coordinates beyond the bitmap are clamped to its last column or row. *)
Definition getPixelIndex (image : JimpImage) (x y : nat) : nat :=
  let xi := if bitmap_width image <=? x then bitmap_width image - 1 else x in
  let yi := if bitmap_height image <=? y then bitmap_height image - 1 else y in
  (bitmap_width image * yi + xi) * 4.

(** [image.getPixelColor(x, y)]: the pixel as one 32-bit integer 0xRRGGBBAA. *)
Definition getPixelColor (image : JimpImage) (x y : nat) : Z :=
  readUInt32BE (bitmap_data image) (getPixelIndex image x y).

(** [intToRGBA(i)]. *)
Definition intToRGBA (i : Z) : RGBA :=
  let r := (i / 256 ^ 3)%Z in
  let g := ((i - r * 256 ^ 3) / 256 ^ 2)%Z in
  let b := ((i - r * 256 ^ 3 - g * 256 ^ 2) / 256)%Z in
  let a := ((i - r * 256 ^ 3 - g * 256 ^ 2 - b * 256) / 256 ^ 0)%Z in
  {| r := r; g := g; b := b; a := a |}.

(** ** image.ts and model.ts: [preprocessImage] *)

(** ImageNet mean and standard deviation. *)
Definition mean : list number := [Fin 0.485; Fin 0.456; Fin 0.406].
Definition std : list number := [Fin 0.229; Fin 0.224; Fin 0.225].

(** [xs[i]] inside an arithmetic expression: [undefined] becomes [NaN]. *)
Definition at_index (xs : list number) (i : nat) : number :=
  default NaN (xs !! i).

(** The value computed for channel [c], row [h], column [w]. *)
Definition normalizedValue (image : JimpImage) (c h w : nat) : number :=
  let pixelColor := intToRGBA (getPixelColor image w h) in
  let channelValue :=
    if c =? 0 then r pixelColor
    else if c =? 1 then g pixelColor else b pixelColor in
  Num.div (Num.sub (Num.div (Num.of_Z channelValue) (Fin 255)) (at_index mean c))
          (at_index std c).

(** [processPixels], the closure over the resized image. *)
Definition processPixels (image : JimpImage) : list number :=
  let width := 224 in
  let height := 224 in
  let channels := 3 in
  let pixelData :=
    Array_from channels (λ c,
      Array_from height (λ h,
        Array_from width (λ w, normalizedValue image c h w))) in
  let result := Float32Array_new (channels * height * width) in
  forEach (λ channelData c,
    forEach (λ rowData h,
      forEach (λ value w (result : list number),
        let index := c * height * width + h * width + w in
        <[index := toFloat32 value]> result) rowData) channelData) pixelData result.

Section Preprocess.

(** The two calls into Jimp: decoding ([Jimp.read], which rejects when the
    input is not an image) and resampling ([image.resize]). *)
Context {JimpImageInput : Type}.
Variable Jimp_read : JimpImageInput → outcome JimpImage.
Variable Jimp_resize : nat → nat → JimpImage → JimpImage.

Definition preprocessImage (imageInput : JimpImageInput) : M (list number) :=
  image ← settle (Jimp_read imageInput);
  let image := Jimp_resize 224 224 image in
  mret (processPixels image).

End Preprocess.

(** ** [Array.prototype.sort] *)

(** ECMAScript requires the sort to be stable and, for a consistent comparator,
    fixes the resulting order; the stable insertion sort below computes that
    order.  A comparator result that is [NaN] counts as [+0] (SortCompare). *)
Definition sorts_after (v : number) : bool := Num.ltb (Fin 0) v.

Fixpoint sort_insert {A} (comparefn : A → A → number) (x : A) (sorted : list A)
    : list A :=
  match sorted with
  | [] => [x]
  | y :: rest =>
      if sorts_after (comparefn x y)
      then y :: sort_insert comparefn x rest
      else x :: y :: rest
  end.

Definition Array_sort {A} (comparefn : A → A → number) (xs : list A) : list A :=
  foldr (sort_insert comparefn) [] xs.

(** ** model.ts: softmax and the prediction types *)

Definition computeSoftmax (logits : list number) : list number :=
  let maxLogit := Num.Math_max logits in
  let expScores := (λ logit, Num.exp (Num.sub logit maxLogit)) <$> logits in
  let sumExpScores := reduce (λ sum expScore, Num.add sum expScore) (Fin 0) expScores in
  (λ expScore, Num.div expScore sumExpScores) <$> expScores.

(** [label] is [None] where [labels[index]] is [undefined]. *)
Record ImagePrediction : Type := mkPrediction {
  label : option string;
  score : number;
  index : nat;
}.

Record ImageDetectionResult : Type := mkResult {
  predictions : list ImagePrediction;
  executionTimeMs : number;
}.

Record IndexedScore : Type := mkIndexed { iscore : number; iindex : nat }.

(** The ranking steps of [detectImage], from the model output to
    [topPredictions]; [labels] is the imported [labels.json]. *)
Definition topPredictionsOf (labels : list string) (outputData : list number)
    : list ImagePrediction :=
  let probabilities := computeSoftmax outputData in
  let indexedScores :=
    map_indexed (λ score index, {| iscore := score; iindex := index |}) probabilities in
  let sortedResults :=
    Array_sort (λ a b, Num.sub (iscore b) (iscore a)) indexedScores in
  (λ result, {| label := labels !! iindex result;
                score := iscore result;
                index := iindex result |}) <$> slice0 10 sortedResults.

(** ** model.ts: the model cache, sessions and inference *)

(** What [results.resnetv17_dense0_fwd] can be when it is an object. *)
Inductive OutputValue : Type :=
  | WithoutData                          (* no [data] property *)
  | Float32Data (data : list number)     (* [data] is a [Float32Array] *)
  | OtherData.                           (* [data] of another type *)

(** Logging ([console.log], [console.error]) changes nothing the functions
    return or remember and is left out. *)

Section Model.

(** The collaborators: the [k]-th [fetch] of the model file with its
    [arrayBuffer()], the [k]-th [InferenceSession.create], building the input
    tensor and [session.run] (yielding the [resnetv17_dense0_fwd] entry of the
    results, if any), the [k]-th reading of [performance.now()], and the
    label table. *)
Context {Session : Type}.
Variable fetch_arrayBuffer : nat → outcome (list Z).
Variable InferenceSession_create : nat → list Z → outcome Session.
Variable Session_run : Session → list number → outcome (option OutputValue).
Variable performance_now : nat → number.
Variable labels : list string.

Definition fetch_model : M (list Z) := λ w,
  (fetch_arrayBuffer (fetches w),
   {| cachedModelData := cachedModelData w; fetches := S (fetches w);
      sessions := sessions w; clock_reads := clock_reads w |}).

Definition set_cachedModelData (modelData : list Z) : M unit := λ w,
  (Resolved (),
   {| cachedModelData := Some modelData; fetches := fetches w;
      sessions := sessions w; clock_reads := clock_reads w |}).

Definition ort_create (modelData : list Z) : M Session := λ w,
  (InferenceSession_create (length (sessions w)) modelData,
   {| cachedModelData := cachedModelData w; fetches := fetches w;
      sessions := modelData :: sessions w; clock_reads := clock_reads w |}).

Definition now : M number := λ w,
  (Resolved (performance_now (clock_reads w)),
   {| cachedModelData := cachedModelData w; fetches := fetches w;
      sessions := sessions w; clock_reads := S (clock_reads w) |}).

Definition getModelData : M (list Z) :=
  w ← get_world;
  match cachedModelData w with
  | Some cached => mret cached
  | None =>
      try_catch
        (modelData ← fetch_model;
         _ ← set_cachedModelData modelData;
         mret modelData)
        (λ error, throw error)
  end.

Definition createModelSession : M Session :=
  try_catch
    (modelData ← getModelData;
     session ← ort_create modelData;
     mret session)
    (λ error, throw error).

Definition initializeModel : M unit :=
  _ ← getModelData;
  _ ← createModelSession;
  mret ().

Definition runResNetModel (preprocessedData : list number)
    : M (list number * number) :=
  session ← createModelSession;
  try_catch
    (startTime ← now;
     outputTensor ← settle (Session_run session preprocessedData);
     endTime ← now;
     let executionTimeMs := Num.sub endTime startTime in
     match outputTensor with
     | None | Some WithoutData => throw (Error "出力テンソルの形式が不正です")
     | Some OtherData => throw (Error "出力データが予期しない型です")
     | Some (Float32Data data) => mret (data, executionTimeMs)
     end)
    (λ error, throw error).

(** [detectImage] resolves to [None] for [null]. *)
Definition detectImage (preprocessedData : list number)
    : M (option ImageDetectionResult) :=
  try_catch
    (startTime ← now;
     '(outputData, executionTimeMs) ← runResNetModel preprocessedData;
     let topPredictions := topPredictionsOf labels outputData in
     endTime ← now;
     let totalProcessingTimeMs := Num.sub endTime startTime in
     mret (Some {| predictions := topPredictions;
                   executionTimeMs := totalProcessingTimeMs |}))
    (λ error, mret None).

End Model.

(** ** Definitions used to state the properties *)

(** The spec's reading of the constants and of the channel selection. *)
Definition mean_of (c : nat) : R :=
  match c with 0 => 0.485 | 1 => 0.456 | _ => 0.406 end.
Definition std_of (c : nat) : R :=
  match c with 0 => 0.229 | 1 => 0.224 | _ => 0.225 end.
Definition channel_of (c : nat) (px : RGBA) : Z :=
  match c with 0 => r px | 1 => g px | _ => b px end.

(** ** Sample collaborators and inputs

    Concrete stand-ins for the collaborators, used to run the definitions on
    examples: a decoder of a raw format (width, height, then the RGBA bytes) and
    a nearest-neighbour resampler. *)
Module Sample.

Definition read (input : list Z) : outcome JimpImage :=
  match input with
  | width :: height :: data =>
      if decide ((0 < width)%Z ∧ (0 < height)%Z
                 ∧ length data = Z.to_nat (width * height * 4))
      then Resolved {| bitmap_width := Z.to_nat width;
                       bitmap_height := Z.to_nat height;
                       bitmap_data := data |}
      else Rejected (Thrown 1)
  | _ => Rejected (Thrown 1)
  end.

Definition resize (w h : nat) (image : JimpImage) : JimpImage :=
  {| bitmap_width := w;
     bitmap_height := h;
     bitmap_data :=
       mjoin (Array_from (h * w) (λ k,
         let x := (k `mod` w) * bitmap_width image `div` w in
         let y := (k `div` w) * bitmap_height image `div` h in
         let offset := (bitmap_width image * y + x) * 4 in
         Array_from 4 (λ j, default 0%Z (bitmap_data image !! (offset + j))))) |}.


End Sample.







(** The exponentials [exp (x - m)] of a list of finite logits. *)
Definition expScores_of (m : R) (xs : list R) : list R :=
  (λ x, Rtrigo_def.exp (x - m)%R) <$> xs.

(** The order of the ranking: a higher score first and, for equal scores,
    the lower original index first. *)
Definition ranks_before (a b : IndexedScore) : Prop :=
  match iscore a, iscore b with
  | Fin x, Fin y => (y < x)%R ∨ (x = y ∧ iindex a < iindex b)
  | _, _ => False
  end.

(** The same order on predictions, as the specification words it. *)
Definition ranked (p q : ImagePrediction) : Prop :=
  Num.ge (score p) (score q) ∧ (score p = score q → index p < index q).

(** The comparator that [detectImage] passes to [sort]. *)
Definition byScoreDescending (a b : IndexedScore) : number :=
  Num.sub (iscore b) (iscore a).

Definition finite_score (a : IndexedScore) : Prop := Num.is_finite (iscore a).

(** ** The calls a client can make, and the worlds they lead to *)

Definition is_rejected {A} (o : outcome A) : Prop :=
  match o with Rejected _ => True | Resolved _ => False end.

Section Reachable.
Context {Session : Type}.
Variable fetch_arrayBuffer : nat → outcome (list Z).
Variable InferenceSession_create : nat → list Z → outcome Session.
Variable Session_run : Session → list number → outcome (option OutputValue).
Variable performance_now : nat → number.
Variable labels : list string.

(** The functions of model.ts, exported or not, as steps on the world. *)
Inductive call : Type :=
  | call_getModelData
  | call_createModelSession
  | call_initializeModel
  | call_runResNetModel (preprocessedData : list number)
  | call_detectImage (preprocessedData : list number).

Definition run_call (c : call) (w : World) : World :=
  match c with
  | call_getModelData => (getModelData fetch_arrayBuffer w).2
  | call_createModelSession =>
      (createModelSession fetch_arrayBuffer InferenceSession_create w).2
  | call_initializeModel =>
      (initializeModel fetch_arrayBuffer InferenceSession_create w).2
  | call_runResNetModel data =>
      (runResNetModel fetch_arrayBuffer InferenceSession_create Session_run
         performance_now data w).2
  | call_detectImage data =>
      (detectImage fetch_arrayBuffer InferenceSession_create Session_run
         performance_now labels data w).2
  end.

(** The worlds of a process: the initial one and those any sequence of calls
    leads to, one call completing before the next starts. *)
Inductive reachable : World → Prop :=
  | reachable_initial : reachable initial_world
  | reachable_call c w : reachable w → reachable (run_call c w).

(** The fetches made so far are failed attempts followed by at most one
    success, and the cache holds exactly the bytes of that success. *)
Definition fetched_once (w : World) : Prop :=
  match cachedModelData w with
  | None => ∀ k, k < fetches w → is_rejected (fetch_arrayBuffer k)
  | Some cached =>
      ∃ k, fetches w = S k
           ∧ fetch_arrayBuffer k = Resolved cached
           ∧ ∀ j, j < k → is_rejected (fetch_arrayBuffer j)
  end.

End Reachable.

(** An asynchronous function that keeps a property of the world. *)
Definition preserves {A} (P : World → Prop) (m : M A) : Prop :=
  ∀ w, P w → P (m w).2.

(** Sample collaborators for model.ts: a model file of four bytes, sessions
    numbered in the order of their creation, a clock that ticks once a reading,
    and a run that yields a given tensor. *)
Module SampleModel.

Definition model_bytes : list Z := [79; 78; 78; 88]%Z.
Definition fetch (k : nat) : outcome (list Z) := Resolved model_bytes.
Definition create (k : nat) (modelData : list Z) : outcome nat := Resolved k.
Definition clock (k : nat) : number := Num.of_Z (Z.of_nat k).
Definition run (output : list number) (session : nat) (input : list number)
    : outcome (option OutputValue) :=
  Resolved (Some (Float32Data output)).
Definition failing_run (session : nat) (input : list number)
    : outcome (option OutputValue) :=
  Rejected (Thrown 3).

End SampleModel.

(** The world after one more reading of the clock. *)
Definition tick (w : World) : World :=
  {| cachedModelData := cachedModelData w; fetches := fetches w;
     sessions := sessions w; clock_reads := S (clock_reads w) |}.

(** Two pixels with the same red, green and blue components. *)
Definition same_rgb (p q : RGBA) : Prop :=
  r p = r q ∧ g p = g q ∧ b p = b q.

(** Two one-pixel images, red, differing in the alpha byte only. *)
Definition opaque_red : JimpImage :=
  {| bitmap_width := 1; bitmap_height := 1; bitmap_data := [255; 0; 0; 255]%Z |}.

(** ** Further definitions used to state properties *)

(** Every session created so far was built from the bytes now in the cache. *)
Definition sessions_from_cache (w : World) : Prop :=
  ∀ modelData, modelData ∈ sessions w → cachedModelData w = Some modelData.

(** Collaborators that fail: a fetch that fails the first time and succeeds
    afterwards, a fetch that always fails, a session creation that fails, and
    runs without a usable output. *)
Module SampleFaults.

Definition flaky_fetch (k : nat) : outcome (list Z) :=
  if k =? 0 then Rejected (Thrown 2) else Resolved SampleModel.model_bytes.
Definition failing_fetch (k : nat) : outcome (list Z) := Rejected (Thrown 2).
Definition failing_create (k : nat) (modelData : list Z) : outcome nat :=
  Rejected (Thrown 4).
Definition run_without_output (session : nat) (input : list number)
    : outcome (option OutputValue) :=
  Resolved None.
Definition run_with_other_data (session : nat) (input : list number)
    : outcome (option OutputValue) :=
  Resolved (Some OtherData).

End SampleFaults.

(** The exponentials of a list of finite logits, without the shift. *)
Definition plainExp (xs : list R) : list R := Rtrigo_def.exp <$> xs.



(** The pairs of a probability and its index that [detectImage] ranks, and
    their ranking. *)
Definition indexedScoresOf (outputData : list number) : list IndexedScore :=
  map_indexed (λ score index, {| iscore := score; iindex := index |})
    (computeSoftmax outputData).
Definition sortedResultsOf (outputData : list number) : list IndexedScore :=
  Array_sort (λ a b, Num.sub (iscore b) (iscore a)) (indexedScoresOf outputData).

(** The prediction made of a ranked pair. *)
Definition predictionOf (labels : list string) (result : IndexedScore)
    : ImagePrediction :=
  {| label := labels !! iindex result;
     score := iscore result;
     index := iindex result |}.

(** The prediction for class [i] when all [n] classes are equally likely. *)
Definition uniformPrediction (labels : list string) (n i : nat) : ImagePrediction :=
  {| label := labels !! i; score := Fin (1 / INR n); index := i |}.

(** ** components/ImageRecognitionComponent.tsx: the state and its handlers *)

(** The six state variables of the component ([useState]). *)
Record ComponentState (File : Type) : Type := mkState {
  st_result : option ImageDetectionResult;
  st_loading : bool;
  st_error : option string;
  st_modelInitialized : bool;
  st_uploadedImage : option File;
  st_imagePreview : option string;
}.
Arguments mkState {File}.
Arguments st_result {File}.
Arguments st_loading {File}.
Arguments st_error {File}.
Arguments st_modelInitialized {File}.
Arguments st_uploadedImage {File}.
Arguments st_imagePreview {File}.

(** The state of a freshly mounted component. *)
Definition initial_state {File} : ComponentState File :=
  {| st_result := None; st_loading := false; st_error := None;
     st_modelInitialized := false; st_uploadedImage := None;
     st_imagePreview := None |}.

Section Setters.
Context {File : Type}.

Definition setResult (r : option ImageDetectionResult) (s : ComponentState File)
    : ComponentState File :=
  {| st_result := r; st_loading := st_loading s; st_error := st_error s;
     st_modelInitialized := st_modelInitialized s;
     st_uploadedImage := st_uploadedImage s; st_imagePreview := st_imagePreview s |}.

Definition setLoading (l : bool) (s : ComponentState File) : ComponentState File :=
  {| st_result := st_result s; st_loading := l; st_error := st_error s;
     st_modelInitialized := st_modelInitialized s;
     st_uploadedImage := st_uploadedImage s; st_imagePreview := st_imagePreview s |}.

Definition setError (e : option string) (s : ComponentState File)
    : ComponentState File :=
  {| st_result := st_result s; st_loading := st_loading s; st_error := e;
     st_modelInitialized := st_modelInitialized s;
     st_uploadedImage := st_uploadedImage s; st_imagePreview := st_imagePreview s |}.

Definition setModelInitialized (i : bool) (s : ComponentState File)
    : ComponentState File :=
  {| st_result := st_result s; st_loading := st_loading s; st_error := st_error s;
     st_modelInitialized := i;
     st_uploadedImage := st_uploadedImage s; st_imagePreview := st_imagePreview s |}.

Definition setUploadedImage (f : option File) (s : ComponentState File)
    : ComponentState File :=
  {| st_result := st_result s; st_loading := st_loading s; st_error := st_error s;
     st_modelInitialized := st_modelInitialized s;
     st_uploadedImage := f; st_imagePreview := st_imagePreview s |}.

Definition setImagePreview (p : option string) (s : ComponentState File)
    : ComponentState File :=
  {| st_result := st_result s; st_loading := st_loading s; st_error := st_error s;
     st_modelInitialized := st_modelInitialized s;
     st_uploadedImage := st_uploadedImage s; st_imagePreview := p |}.

End Setters.

Section Component.

(** The collaborators of the component: those of model.ts and of
    [preprocessImage]; [FileReader.readAsDataURL], which yields the data URL of
    a file or fails ([None]); and, for a value thrown by a collaborator, its
    [message] when it is an [Error] ([None] when it is not). *)
Context {File Session : Type}.
Variable readAsDataURL : File → option string.
Variable Jimp_read : string → outcome JimpImage.
Variable Jimp_resize : nat → nat → JimpImage → JimpImage.
Variable fetch_arrayBuffer : nat → outcome (list Z).
Variable InferenceSession_create : nat → list Z → outcome Session.
Variable Session_run : Session → list number → outcome (option OutputValue).
Variable performance_now : nat → number.
Variable labels : list string.
Variable thrown_message : nat → option string.

(** [handleFileUpload]; the preview is set when the reader has finished
    ([onloadend]), with [reader.result], which is [null] after a failure. *)
Definition handleFileUpload (file : option File) (s : ComponentState File)
    : ComponentState File :=
  let s := setUploadedImage file s in
  let s := setResult None s in
  match file with
  | Some f => setImagePreview (readAsDataURL f) s
  | None => setImagePreview None s
  end.

(** [err instanceof Error ? err.message : '...'] for a caught error. *)
Definition messageOf (err : error) : string :=
  match err with
  | Error message => message
  | Thrown code => default "画像処理中にエラーが発生しました" (thrown_message code)
  end.

(** The body of the [try] block of [processUploadedImage], after the three
    state updates that open it: it ends normally or with the message that the
    [catch] block will show.  [modelInitialized] is the value the handler
    closed over. *)
Definition tryRecognize (uploadedImage : File) (modelInitialized : bool)
    (s : ComponentState File) (w : World)
    : option string * ComponentState File * World :=
  match
    (if modelInitialized then (Resolved (), w)
     else initializeModel fetch_arrayBuffer InferenceSession_create w)
  with
  | (Rejected err, w) => (Some (messageOf err), s, w)
  | (Resolved _, w) =>
      let s := if modelInitialized then s else setModelInitialized true s in
      match readAsDataURL uploadedImage with
      | None => (Some "画像処理中にエラーが発生しました", s, w)
      | Some imageDataUrl =>
          match preprocessImage Jimp_read Jimp_resize imageDataUrl w with
          | (Rejected err, w) => (Some (messageOf err), s, w)
          | (Resolved preprocessedData, w) =>
              match detectImage fetch_arrayBuffer InferenceSession_create
                      Session_run performance_now labels preprocessedData w with
              | (Rejected err, w) => (Some (messageOf err), s, w)
              | (Resolved detectionResult, w) =>
                  (None, setResult detectionResult s, w)
              end
          end
      end
  end.

(** [processUploadedImage]: the guard, the [try] block, [catch] and
    [finally]. *)
Definition processUploadedImage (s : ComponentState File) (w : World)
    : ComponentState File * World :=
  match st_uploadedImage s with
  | None => (setError (Some "画像がアップロードされていません") s, w)
  | Some uploadedImage =>
      let s1 := setResult None (setError None (setLoading true s)) in
      let '(caught, s2, w2) :=
        tryRecognize uploadedImage (st_modelInitialized s) s1 w in
      let s3 := match caught with
                | Some message => setError (Some message) s2
                | None => s2
                end in
      (setLoading false s3, w2)
  end.

(** What the user does: choosing a file (or clearing the choice) and pressing
    the button. *)
Inductive event : Type :=
  | SelectFile (file : option File)
  | ClickAnalyze.

Definition handle (ev : event) (sw : ComponentState File * World)
    : ComponentState File * World :=
  match ev with
  | SelectFile file => (handleFileUpload file sw.1, sw.2)
  | ClickAnalyze => processUploadedImage sw.1 sw.2
  end.

(** The states of a session: the initial one and those the events lead to,
    each handler finishing before the next event. *)
Inductive session_state : ComponentState File * World → Prop :=
  | session_start : session_state (initial_state, initial_world)
  | session_event ev sw : session_state sw → session_state (handle ev sw).

(** What holds between two events. *)
Definition settled (sw : ComponentState File * World) : Prop :=
  st_loading sw.1 = false
  ∧ (is_Some (st_result sw.1) → st_error sw.1 = None ∧ is_Some (st_uploadedImage sw.1))
  ∧ (st_modelInitialized sw.1 = true → is_Some (cachedModelData sw.2)).

End Component.

(** Sample collaborators for the component: files are named by strings, the
    file "red" holds a red pixel and every other file is not an image; thrown
    values are [Error]s with the message "failed". *)
Module SampleUI.

Definition readAsDataURL (file : string) : option string := Some file.
Definition failing_reader (file : string) : option string := None.
Definition read (url : string) : outcome JimpImage :=
  if decide (url = "red") then Resolved opaque_red else Rejected (Thrown 1).
Definition message (code : nat) : option string := Some "failed".

(** The component once a file has been chosen, before and after a first
    successful classification. *)
Definition chosen (file : string) : ComponentState string :=
  handleFileUpload readAsDataURL (Some file) initial_state.

End SampleUI.


(** * Properties *)

(** ** [Array.from] *)

Lemma length_Array_from {A} (n : nat) (f : nat → A) : length (Array_from n f) = n.
Proof. unfold Array_from. by rewrite length_fmap, length_seq. Qed.

Lemma lookup_Array_from {A} (n : nat) (f : nat → A) (i : nat) :
  i < n → Array_from n f !! i = Some (f i).
Proof.
  intros Hi. unfold Array_from. by rewrite list_lookup_fmap, lookup_seq_lt.
Qed.

Lemma Forall_Array_from {A} (P : A → Prop) (n : nat) (f : nat → A) :
  (∀ i, i < n → P (f i)) → Forall P (Array_from n f).
Proof.
  intros HP. unfold Array_from. apply Forall_fmap, Forall_forall.
  intros i Hi%elem_of_seq. apply HP. lia.
Qed.

(** ** Arrays written block by block *)

Section Blocks.
Context {A T : Type}.

(** A loop whose [i]-th round overwrites the block of [B] cells that starts at
    [base + i * B] with [cont x] leaves the concatenation of the blocks. *)
Lemma forEach_from_blocks (body : A → nat → list T → list T)
    (cont : A → list T) (B base : nat) (P : A → Prop) (xs : list A) :
  (∀ x, P x → length (cont x) = B) →
  (∀ x i pre old post,
      P x → length pre = base + i * B → length old = B →
      body x i (pre ++ old ++ post) = pre ++ cont x ++ post) →
  Forall P xs →
  ∀ k pre old post,
    length pre = base + k * B → length old = length xs * B →
    forEach_from k body xs (pre ++ old ++ post)
    = pre ++ mjoin (cont <$> xs) ++ post.
Proof.
  intros HP Hbody Hlen. induction Hlen as [|x xs Hx Hxs IH];
    intros k pre old post Hpre Hold.
  - destruct old; [done | simpl in Hold; lia].
  - change (forEach_from k body (x :: xs) (pre ++ old ++ post))
      with (forEach_from (S k) body xs (body x k (pre ++ old ++ post))).
    change (mjoin (cont <$> x :: xs)) with (cont x ++ mjoin (cont <$> xs)).
    rewrite <- (take_drop B old), <- !(assoc (++)).
    rewrite (Hbody x k pre (take B old) (drop B old ++ post)); last first.
    { rewrite length_take. simpl in Hold. lia. }
    { done. }
    { done. }
    rewrite (assoc (++) pre (cont x)).
    rewrite IH; last first.
    { rewrite length_drop. simpl in Hold. lia. }
    { rewrite length_app, Hpre, (HP x Hx). lia. }
    by rewrite <- !(assoc (++)).
Qed.

End Blocks.

Section Flatten.
Context {T : Type}.

(** Reading a concatenation of blocks of equal length. *)
Lemma lookup_join_uniform (B : nat) (ls : list (list T)) (i j : nat) :
  Forall (λ l, length l = B) ls → j < B →
  mjoin ls !! (i * B + j) = ls !! i ≫= (.!! j).
Proof.
  intros Hls Hj. revert i. induction Hls as [|l ls Hl _ IH]; intros i.
  - done.
  - change (mjoin (l :: ls)) with (l ++ mjoin ls). destruct i as [|i].
    + rewrite lookup_app_l by lia. done.
    + rewrite lookup_app_r by lia.
      replace (S i * B + j - length l) with (i * B + j) by lia.
      apply IH.
Qed.

Lemma length_join_uniform (B : nat) (ls : list (list T)) :
  Forall (λ l, length l = B) ls → length (mjoin ls) = length ls * B.
Proof.
  induction 1 as [|l ls Hl _ IH]; [done|].
  change (mjoin (l :: ls)) with (l ++ mjoin ls).
  rewrite length_app, IH, Hl. simpl. lia.
Qed.

Lemma join_singletons (l : list T) : mjoin ((λ v, [v]) <$> l) = l.
Proof.
  induction l as [|v l IH]; [done|].
  change (mjoin ((λ v, [v]) <$> v :: l)) with ([v] ++ mjoin ((λ v, [v]) <$> l)).
  by rewrite IH.
Qed.

(** One row written cell by cell. *)
Lemma forEach_row (base : nat) (row pre old post : list T) :
  length pre = base → length old = length row →
  forEach (λ value w (result : list T), <[base + w := value]> result) row
    (pre ++ old ++ post)
  = pre ++ row ++ post.
Proof.
  intros Hpre Hold. unfold forEach.
  rewrite (forEach_from_blocks _ (λ v, [v]) 1 base (λ _, True)).
  - by rewrite join_singletons.
  - done.
  - intros x i pre' old' post' _ Hpre' Hold'.
    destruct old' as [|o [|??]]; try done.
    replace (base + i) with (length pre' + 0) by lia.
    by rewrite insert_app_r.
  - by apply Forall_true.
  - lia.
  - lia.
Qed.

(** One channel written row by row. *)
Lemma forEach_channel (base W : nat) (rows : list (list T)) (pre old post : list T) :
  Forall (λ row, length row = W) rows →
  length pre = base → length old = length rows * W →
  forEach (λ rowData h,
    forEach (λ value w (result : list T),
      <[base + h * W + w := value]> result) rowData) rows
    (pre ++ old ++ post)
  = pre ++ mjoin rows ++ post.
Proof.
  intros Hrows Hpre Hold. unfold forEach at 1.
  rewrite (forEach_from_blocks _ Datatypes.id W base (λ row, length row = W)).
  - by rewrite list_fmap_id.
  - done.
  - intros row h pre' old' post' Hrow Hpre' Hold'.
    apply forEach_row; [done | by rewrite Hold'].
  - done.
  - lia.
  - done.
Qed.

(** The three nested [forEach] loops of [processPixels], for any dimensions
    and any cell contents: the buffer ends up as the channel-major flattening
    of the nested array. *)
Lemma nested_forEach_flat (nested : list (list (list T))) (z : T) (C H W : nat) :
  length nested = C →
  Forall (λ ch, length ch = H ∧ Forall (λ row, length row = W) ch) nested →
  forEach (λ channelData c,
    forEach (λ rowData h,
      forEach (λ value w (result : list T),
        <[c * H * W + h * W + w := value]> result) rowData) channelData)
    nested (replicate (C * H * W) z)
  = mjoin (mjoin <$> nested).
Proof.
  intros HC Hnested. unfold forEach at 1.
  rewrite <- (app_nil_r (replicate _ z)), <- (app_nil_l (replicate _ z ++ [])).
  rewrite (forEach_from_blocks _ mjoin (H * W) 0
             (λ ch, length ch = H ∧ Forall (λ row, length row = W) ch)).
  - by rewrite app_nil_r.
  - intros ch [Hch Hrows]. by rewrite (length_join_uniform W), Hch.
  - intros ch c pre old post [Hch Hrows] Hpre Hold.
    replace (c * H * W) with (0 + c * (H * W)) by lia.
    apply forEach_channel; [done | lia | lia].
  - done.
  - done.
  - rewrite length_replicate. lia.
Qed.

End Flatten.

(** ** Preprocessing *)

Lemma div_finite (x y : R) : y ≠ 0%R → Num.div (Fin x) (Fin y) = Fin (x / y).
Proof. intros Hy. unfold Num.div. by destruct (Req_dec_T y 0). Qed.

Lemma normalizedValue_eq (image : JimpImage) (c h w : nat) :
  c < 3 →
  normalizedValue image c h w
  = Fin ((IZR (channel_of c (intToRGBA (getPixelColor image w h))) / 255
          - mean_of c) / std_of c).
Proof.
  intros Hc. unfold normalizedValue.
  set (px := intToRGBA (getPixelColor image w h)).
  assert (c = 0 ∨ c = 1 ∨ c = 2) as [-> | [-> | ->]] by lia;
    cbn [Nat.eqb channel_of mean_of std_of at_index mean std lookup
         list_lookup default from_option Datatypes.id];
    unfold Num.of_Z; rewrite (div_finite _ 255) by lra;
    cbn [Num.sub Num.neg Num.add]; rewrite div_finite by lra;
    do 2 f_equal; lra.
Qed.

Lemma processPixels_flat (image : JimpImage) :
  processPixels image
  = mjoin (mjoin <$> Array_from 3 (λ c,
             Array_from 224 (λ h,
               Array_from 224 (λ w, normalizedValue image c h w)))).
Proof.
  unfold processPixels, Float32Array_new, toFloat32. cbv zeta.
  apply nested_forEach_flat.
  - apply length_Array_from.
  - apply Forall_Array_from. intros c _. split.
    + apply length_Array_from.
    + apply Forall_Array_from. intros h _. apply length_Array_from.
Qed.


Lemma lookup_processPixels (image : JimpImage) (c h w : nat) :
  c < 3 → h < 224 → w < 224 →
  processPixels image !! (c * 224 * 224 + h * 224 + w)
  = Some (normalizedValue image c h w).
Proof.
  intros Hc Hh Hw. rewrite processPixels_flat.
  replace (c * 224 * 224 + h * 224 + w) with (c * (224 * 224) + (h * 224 + w)) by lia.
  rewrite (lookup_join_uniform (224 * 224)); [| |lia].
  - rewrite list_lookup_fmap, lookup_Array_from by done.
    change (mjoin (Array_from 224 (λ h0,
              Array_from 224 (λ w0, normalizedValue image c h0 w0))) !! (h * 224 + w)
            = Some (normalizedValue image c h w)).
    rewrite (lookup_join_uniform 224); [| |done].
    + rewrite lookup_Array_from by done.
      change (Array_from 224 (λ w0, normalizedValue image c h w0) !! w
              = Some (normalizedValue image c h w)).
      by rewrite lookup_Array_from.
    + apply Forall_Array_from. intros h0 _. apply length_Array_from.
  - apply Forall_fmap, Forall_Array_from. intros c0 _.
    change (length (mjoin (Array_from 224 (λ h0,
              Array_from 224 (λ w0, normalizedValue image c0 h0 w0)))) = 224 * 224).
    rewrite (length_join_uniform 224).
    + by rewrite length_Array_from.
    + apply Forall_Array_from. intros h0 _. apply length_Array_from.
Qed.


(** An input that Jimp cannot decode: the rejection is passed on and no tensor
    is produced. *)
Lemma preprocessImage_rejects {Input : Type}
    (Jimp_read : Input → outcome JimpImage)
    (Jimp_resize : nat → nat → JimpImage → JimpImage)
    (imageInput : Input) (e : error) (world : World) :
  Jimp_read imageInput = Rejected e →
  preprocessImage Jimp_read Jimp_resize imageInput world = (Rejected e, world).
Proof.
  intros Hread. unfold preprocessImage, mbind, M_bind, settle. by rewrite Hread.
Qed.


(** ** Softmax *)

Section SoftmaxFinite.
Local Open Scope R_scope.

Lemma max2_finite (x y : R) : Num.max2 (Fin x) (Fin y) = Fin (Rmax x y).
Proof.
  unfold Num.max2, Num.ltb, Rmax.
  destruct (Rlt_dec x y), (Rle_dec x y); try done; try lra.
  f_equal. lra.
Qed.

Lemma foldl_max2_finite (xs : list R) (x0 : R) :
  foldl Num.max2 (Fin x0) (Fin <$> xs) = Fin (foldl Rmax x0 xs).
Proof.
  revert x0. induction xs as [|x xs IH]; intros x0; [done|].
  cbn [fmap list_fmap foldl]. by rewrite max2_finite, IH.
Qed.

Lemma Math_max_finite (x : R) (xs : list R) :
  Num.Math_max (Fin <$> x :: xs) = Fin (foldl Rmax x xs).
Proof.
  unfold Num.Math_max. cbn [fmap list_fmap foldl].
  change (Num.max2 NegInf (Fin x)) with (Fin x). apply foldl_max2_finite.
Qed.

Lemma total_finite_from (es : list R) (a : R) :
  foldl (λ sum p, Num.add sum p) (Fin a) (Fin <$> es) = Fin (foldl Rplus a es).
Proof.
  revert a. induction es as [|e es IH]; intros a; [done|].
  cbn [fmap list_fmap foldl Num.add]. apply IH.
Qed.


Lemma foldl_Rplus_shift (es : list R) (a : R) :
  foldl Rplus a es = a + foldl Rplus 0 es.
Proof.
  revert a. induction es as [|e es IH]; intros a; cbn [foldl]; [lra|].
  rewrite (IH (a + e)), (IH (0 + e)). lra.
Qed.

Lemma foldl_Rplus_nonneg (es : list R) :
  Forall (λ e, 0 <= e) es → 0 <= foldl Rplus 0 es.
Proof.
  induction 1 as [|e es He _ IH]; cbn [foldl]; [lra|].
  rewrite foldl_Rplus_shift. lra.
Qed.

Lemma foldl_Rplus_elem (es : list R) (e : R) :
  Forall (λ e, 0 <= e) es → e ∈ es → e <= foldl Rplus 0 es.
Proof.
  induction 1 as [|e' es He' Hes IH]; intros Hin.
  - by apply elem_of_nil in Hin.
  - cbn [foldl]. rewrite foldl_Rplus_shift.
    pose proof (foldl_Rplus_nonneg es Hes).
    apply elem_of_cons in Hin as [-> | Hin]; [lra|].
    specialize (IH Hin). lra.
Qed.

Lemma foldl_Rplus_scale (es : list R) (k : R) :
  foldl Rplus 0 ((λ e, e * k) <$> es) = foldl Rplus 0 es * k.
Proof.
  induction es as [|e es IH]; cbn [fmap list_fmap foldl]; [lra|].
  rewrite foldl_Rplus_shift, (foldl_Rplus_shift es (0 + e)).
  change (list_fmap R R (λ e0, e0 * k) es) with ((λ e0, e0 * k) <$> es).
  rewrite IH. lra.
Qed.

Lemma expScores_pos (m : R) (xs : list R) : Forall (λ e, 0 < e) (expScores_of m xs).
Proof. apply Forall_fmap, Forall_forall. intros x _. apply exp_pos. Qed.

Lemma expScores_sum_pos (m x : R) (xs : list R) :
  0 < foldl Rplus 0 (expScores_of m (x :: xs)).
Proof.
  pose proof (expScores_pos m (x :: xs)) as Hpos.
  assert (Forall (λ e, 0 <= e) (expScores_of m (x :: xs))) as Hnn.
  { eapply Forall_impl; [exact Hpos|]. intros; simpl in *; lra. }
  pose proof (foldl_Rplus_elem _ (Rtrigo_def.exp (x - m)) Hnn) as Hle.
  pose proof (exp_pos (x - m)).
  assert (Rtrigo_def.exp (x - m) ∈ expScores_of m (x :: xs)) as Hin.
  { unfold expScores_of. rewrite fmap_cons. apply elem_of_cons. by left. }
  specialize (Hle Hin). lra.
Qed.

(** [computeSoftmax] on finite logits, in closed form. *)
Lemma computeSoftmax_finite (x : R) (xs : list R) :
  let m := foldl Rmax x xs in
  let es := expScores_of m (x :: xs) in
  computeSoftmax (Fin <$> x :: xs)
  = Fin <$> ((λ e, e / foldl Rplus 0 es) <$> es).
Proof.
  intros m es. unfold computeSoftmax. cbv zeta.
  rewrite Math_max_finite. fold m.
  assert ((λ logit, Num.exp (Num.sub logit (Fin m))) <$> (Fin <$> x :: xs)
          = Fin <$> es) as ->.
  { unfold es, expScores_of. rewrite <- !list_fmap_compose.
    apply list_fmap_ext. intros _ y _. unfold compose.
    cbn [Num.sub Num.neg Num.add Num.exp]. done. }
  unfold reduce. rewrite total_finite_from.
  rewrite <- !list_fmap_compose. apply list_fmap_ext. intros _ e _.
  unfold compose. apply div_finite.
  pose proof (expScores_sum_pos m x xs). fold es in H. lra.
Qed.

End SoftmaxFinite.

Lemma finite_list (l : list number) :
  Forall Num.is_finite l → ∃ xs : list R, l = Fin <$> xs.
Proof.
  induction 1 as [|p l Hp _ [xs ->]]; [by exists []|].
  destruct p as [| | |x]; try done. by exists (x :: xs).
Qed.

Section SoftmaxClaims.
Local Open Scope R_scope.






End SoftmaxClaims.

Section SoftmaxShift.
Local Open Scope R_scope.








End SoftmaxShift.

(** ** Ranking *)

Section Sorting.
Context {A : Type} (comparefn : A → A → number).

Lemma Forall_sort_insert (P : A → Prop) (x : A) (sorted : list A) :
  P x → Forall P sorted → Forall P (sort_insert comparefn x sorted).
Proof.
  intros Hx. induction 1 as [|y rest Hy Hrest IH]; cbn [sort_insert].
  - by constructor.
  - destruct (sorts_after (comparefn x y)).
    + by constructor.
    + by repeat constructor.
Qed.

Lemma Array_sort_cons (x : A) (xs : list A) :
  Array_sort comparefn (x :: xs)
  = sort_insert comparefn x (Array_sort comparefn xs).
Proof. done. Qed.

Lemma Forall_Array_sort (P : A → Prop) (xs : list A) :
  Forall P xs → Forall P (Array_sort comparefn xs).
Proof.
  induction 1 as [|x xs Hx _ IH]; [constructor|].
  rewrite Array_sort_cons. by apply Forall_sort_insert.
Qed.

Lemma length_sort_insert (x : A) (sorted : list A) :
  length (sort_insert comparefn x sorted) = S (length sorted).
Proof.
  induction sorted as [|y rest IH]; cbn [sort_insert]; [done|].
  destruct (sorts_after (comparefn x y)); cbn [length]; by rewrite ?IH.
Qed.

Lemma length_Array_sort (xs : list A) :
  length (Array_sort comparefn xs) = length xs.
Proof.
  induction xs as [|x xs IH]; [done|].
  by rewrite Array_sort_cons, length_sort_insert, IH.
Qed.

Lemma sort_insert_Permutation (x : A) (sorted : list A) :
  sort_insert comparefn x sorted ≡ₚ x :: sorted.
Proof.
  induction sorted as [|y rest IH]; cbn [sort_insert]; [done|].
  destruct (sorts_after (comparefn x y)); [|done].
  rewrite IH. apply Permutation_swap.
Qed.

(** Sorting rearranges the array: nothing is lost, added or duplicated. *)
Lemma Array_sort_Permutation (xs : list A) : Array_sort comparefn xs ≡ₚ xs.
Proof.
  induction xs as [|x xs IH]; [done|].
  rewrite Array_sort_cons, sort_insert_Permutation.
  by constructor.
Qed.

End Sorting.

Lemma StronglySorted_lookup {A} (R : relation A) (l : list A) (i j : nat) (x y : A) :
  StronglySorted R l → i < j → l !! i = Some x → l !! j = Some y → R x y.
Proof.
  intros Hsorted. revert i j. induction Hsorted as [|z l _ IH Hz]; intros i j Hij Hi Hj.
  - done.
  - destruct j as [|j]; [lia|]. destruct i as [|i].
    + simplify_eq/=. rewrite Forall_forall in Hz.
      apply Hz. by eapply list_elem_of_lookup_2.
    + apply (IH i j); [lia|done..].
Qed.

Lemma StronglySorted_take {A} (R : relation A) (n : nat) (l : list A) :
  StronglySorted R l → StronglySorted R (take n l).
Proof.
  intros Hsorted. rewrite <- (take_drop n l) in Hsorted.
  by apply StronglySorted_app_1_l in Hsorted.
Qed.

Section Ranking.
Local Open Scope R_scope.

Lemma sorts_after_byScore (a b : IndexedScore) (x y : R) :
  iscore a = Fin x → iscore b = Fin y →
  sorts_after (byScoreDescending a b) = true ↔ x < y.
Proof.
  intros Ha Hb. unfold sorts_after, byScoreDescending.
  rewrite Ha, Hb. cbn [Num.sub Num.neg Num.add Num.ltb].
  destruct (Rlt_dec 0 (y + - x)); split; intros; try done; lra.
Qed.

(** Inserting an element that precedes, in the original array, everything
    already sorted keeps the ranking order. *)
Lemma sort_insert_ranked (x : IndexedScore) (sorted : list IndexedScore) :
  finite_score x →
  Forall (λ y, finite_score y ∧ (iindex x < iindex y)%nat) sorted →
  StronglySorted ranks_before sorted →
  StronglySorted ranks_before (sort_insert byScoreDescending x sorted).
Proof.
  intros Hx Hall Hsorted.
  induction Hsorted as [|y rest Hrest IH Hy]; cbn [sort_insert].
  - repeat constructor.
  - apply Forall_cons in Hall as [[Hfy Hxy] Hall].
    unfold finite_score in Hx, Hfy.
    destruct (iscore x) as [| | |sx] eqn:Ex; try done.
    destruct (iscore y) as [| | |sy] eqn:Ey; try done.
    pose proof (sorts_after_byScore x y sx sy Ex Ey) as Hcmp.
    destruct (sorts_after (byScoreDescending x y)).
    + assert (sx < sy) as Hlt by by apply Hcmp.
      constructor; [by apply IH|].
      apply Forall_sort_insert; [|done].
      unfold ranks_before. rewrite Ex, Ey. by left.
    + assert (¬ sx < sy) as Hge by (intros ?; by apply Hcmp in H).
      constructor; [by constructor|]. constructor.
      * unfold ranks_before. rewrite Ex, Ey.
        destruct (Rle_lt_or_eq_dec sy sx) as [?| ->]; [lra|by left|by right].
      * rewrite Forall_forall in Hy, Hall |- *. intros z Hz.
        specialize (Hy z Hz). destruct (Hall z Hz) as [Hfz Hxz].
        unfold ranks_before in Hy |- *. rewrite Ex. rewrite Ey in Hy.
        destruct (iscore z) as [| | |sz]; try done.
        destruct Hy as [? | [-> ?]].
        -- left. lra.
        -- destruct (Rle_lt_or_eq_dec sz sx) as [?| ->];
             [lra|by left|by right].
Qed.

Lemma Array_sort_ranked (xs : list IndexedScore) :
  Forall finite_score xs →
  StronglySorted (λ a b, (iindex a < iindex b)%nat) xs →
  StronglySorted ranks_before (Array_sort byScoreDescending xs).
Proof.
  intros Hfin Hidx. induction Hidx as [|x xs _ IH Hx]; [constructor|].
  apply Forall_cons in Hfin as [Hfx Hfin].
  rewrite Array_sort_cons. apply sort_insert_ranked; [done| |by apply IH].
  apply Forall_Array_sort.
  rewrite Forall_forall in Hx, Hfin |- *. intros y Hy. split; auto.
Qed.

End Ranking.

Lemma computeSoftmax_keeps_finite (logits : list number) :
  Forall Num.is_finite logits → Forall Num.is_finite (computeSoftmax logits).
Proof.
  intros [xs ->]%finite_list. destruct xs as [|x xs]; [constructor|].
  rewrite computeSoftmax_finite. cbv zeta.
  apply Forall_fmap, Forall_forall. intros e _. exact I.
Qed.

Lemma length_computeSoftmax (logits : list number) :
  length (computeSoftmax logits) = length logits.
Proof. unfold computeSoftmax. cbv zeta. by rewrite !length_fmap. Qed.

Lemma indexed_from (k : nat) (probabilities : list number) :
  let indexed := imap (λ i score, {| iscore := score; iindex := k + i |}) probabilities in
  Forall (λ a, k ≤ iindex a) indexed
  ∧ StronglySorted (λ a b, iindex a < iindex b) indexed.
Proof.
  revert k. induction probabilities as [|p ps IH]; intros k.
  - split; constructor.
  - rewrite imap_cons.
    rewrite (imap_ext _ (λ i score, {| iscore := score; iindex := S k + i |}));
      last first.
    { intros i x _. unfold compose. f_equal. lia. }
    destruct (IH (S k)) as [Hge Hsorted]. cbv zeta in Hge, Hsorted.
    split.
    + constructor; [simpl; lia|].
      eapply Forall_impl; [exact Hge|]. intros a Ha. simpl in Ha. lia.
    + constructor; [done|].
      eapply Forall_impl; [exact Hge|]. intros a Ha. simpl in *. lia.
Qed.

Lemma ranked_of_ranks_before (labels : list string) (a b : IndexedScore) :
  ranks_before a b →
  ranked {| label := labels !! iindex a; score := iscore a; index := iindex a |}
         {| label := labels !! iindex b; score := iscore b; index := iindex b |}.
Proof.
  unfold ranks_before, ranked. cbn [score index].
  destruct (iscore a) as [| | |x], (iscore b) as [| | |y]; try done.
  cbn [Num.ge]. intros [Hlt | [-> Hidx]].
  - split; [lra|]. intros [=]. lra.
  - split; [lra|done].
Qed.

Lemma sortedResults_ranked (outputData : list number) :
  Forall Num.is_finite outputData →
  StronglySorted ranks_before
    (Array_sort byScoreDescending
       (map_indexed (λ score index, {| iscore := score; iindex := index |})
          (computeSoftmax outputData))).
Proof.
  intros Hfin. unfold map_indexed.
  pose proof (indexed_from 0 (computeSoftmax outputData)) as [_ Hidx].
  apply Array_sort_ranked; [|exact Hidx].
  apply Forall_forall. intros a [i Ha]%list_elem_of_lookup_1.
  apply list_lookup_imap_Some in Ha as [p [Hp ->]].
  pose proof (computeSoftmax_keeps_finite outputData Hfin) as Hsm.
  rewrite Forall_forall in Hsm. apply Hsm. by eapply list_elem_of_lookup_2.
Qed.


(** The same, position by position. *)
Corollary topPredictionsOf_ranked_lookup (labels : list string)
    (outputData : list number) (i j : nat) (p q : ImagePrediction) :
  Forall Num.is_finite outputData → i < j →
  topPredictionsOf labels outputData !! i = Some p →
  topPredictionsOf labels outputData !! j = Some q →
  Num.ge (score p) (score q) ∧ (score p = score q → index p < index q).
Proof.
  intros Hfin Hij. unfold topPredictionsOf, slice0. cbv zeta.
  rewrite !list_lookup_fmap. intros Hp Hq.
  apply fmap_Some in Hp as (a & Ha & ->). apply fmap_Some in Hq as (c & Hc & ->).
  apply ranked_of_ranks_before.
  eapply (StronglySorted_lookup ranks_before); [|exact Hij|exact Ha|exact Hc].
  apply StronglySorted_take. exact (sortedResults_ranked outputData Hfin).
Qed.


(** ** The shape of the prediction list *)

Lemma length_topPredictionsOf (labels : list string) (outputData : list number) :
  length (topPredictionsOf labels outputData) = 10 `min` length outputData.
Proof.
  unfold topPredictionsOf, slice0, map_indexed. cbv zeta.
  by rewrite length_fmap, length_take, length_Array_sort, length_imap,
    length_computeSoftmax.
Qed.

Lemma topPredictionsOf_entries (labels : list string) (outputData : list number) :
  Forall (λ p, label p = labels !! index p
               ∧ computeSoftmax outputData !! index p = Some (score p))
         (topPredictionsOf labels outputData).
Proof.
  unfold topPredictionsOf, slice0, map_indexed. cbv zeta.
  apply Forall_fmap, Forall_take, Forall_Array_sort, Forall_forall.
  intros a [i Ha]%list_elem_of_lookup_1.
  apply list_lookup_imap_Some in Ha as [p [Hp ->]]. by split.
Qed.




(** ** Asynchronous functions and what they keep *)

Section Preserves.
Context (P : World → Prop).

Lemma preserves_ret {A} (a : A) : preserves P (mret a).
Proof. by intros w Hw. Qed.

Lemma preserves_throw {A} (e : error) : preserves P (throw (A := A) e).
Proof. by intros w Hw. Qed.

Lemma preserves_settle {A} (o : outcome A) : preserves P (settle o).
Proof. by intros w Hw. Qed.

Lemma preserves_bind {A B} (m : M A) (k : A → M B) :
  preserves P m → (∀ a, preserves P (k a)) → preserves P (m ≫= k).
Proof.
  intros Hm Hk w Hw. unfold mbind, M_bind. specialize (Hm w Hw).
  destruct (m w) as [[a|e] w']; [by apply Hk | done].
Qed.

Lemma preserves_try_catch {A} (body : M A) (handler : error → M A) :
  preserves P body → (∀ e, preserves P (handler e)) →
  preserves P (try_catch body handler).
Proof.
  intros Hbody Hhandler w Hw. unfold try_catch. specialize (Hbody w Hw).
  destruct (body w) as [[a|e] w']; [done | by apply Hhandler].
Qed.

End Preserves.

Section ModelFacts.
Context {Session : Type}.
Variable fetch_arrayBuffer : nat → outcome (list Z).
Variable InferenceSession_create : nat → list Z → outcome Session.
Variable Session_run : Session → list number → outcome (option OutputValue).
Variable performance_now : nat → number.
Variable labels : list string.

Local Abbreviation getModelData' := (getModelData fetch_arrayBuffer).
Local Abbreviation createModelSession' :=
  (createModelSession fetch_arrayBuffer InferenceSession_create).
Local Abbreviation initializeModel' :=
  (initializeModel fetch_arrayBuffer InferenceSession_create).
Local Abbreviation runResNetModel' :=
  (runResNetModel fetch_arrayBuffer InferenceSession_create Session_run
     performance_now).
Local Abbreviation detectImage' :=
  (detectImage fetch_arrayBuffer InferenceSession_create Session_run
     performance_now labels).
Local Abbreviation fetched_once' := (fetched_once fetch_arrayBuffer).

(** *** [detectImage], outcome by outcome *)

Lemma detectImage_unfold (preprocessedData : list number) (w : World) :
  detectImage' preprocessedData w
  = match runResNetModel' preprocessedData (tick w) with
    | (Resolved (outputData, _), w2) =>
        (Resolved (Some {|
           predictions := topPredictionsOf labels outputData;
           executionTimeMs :=
             Num.sub (performance_now (clock_reads w2))
                     (performance_now (clock_reads w)) |}),
         tick w2)
    | (Rejected _, w2) => (Resolved None, w2)
    end.
Proof.
  unfold detectImage, try_catch, mbind, M_bind, now, mret, M_ret. fold (tick w).
  destruct (runResNetModel' preprocessedData (tick w)) as [[[out t]|e] w2]; done.
Qed.

(** *** The cache *)

Lemma getModelData_cached (w : World) (cached : list Z) :
  cachedModelData w = Some cached →
  getModelData' w = (Resolved cached, w).
Proof.
  intros Hc. unfold getModelData, mbind, M_bind, get_world. by rewrite Hc.
Qed.

Lemma getModelData_fetches (w : World) :
  cachedModelData w = None →
  getModelData' w
  = match fetch_arrayBuffer (fetches w) with
    | Resolved modelData =>
        (Resolved modelData,
         {| cachedModelData := Some modelData; fetches := S (fetches w);
            sessions := sessions w; clock_reads := clock_reads w |})
    | Rejected e =>
        (Rejected e,
         {| cachedModelData := None; fetches := S (fetches w);
            sessions := sessions w; clock_reads := clock_reads w |})
    end.
Proof.
  intros Hc.
  unfold getModelData, mbind, M_bind, get_world, try_catch, fetch_model,
    set_cachedModelData, throw, mret, M_ret.
  rewrite Hc. destruct (fetch_arrayBuffer (fetches w)); by rewrite ?Hc.
Qed.

Lemma getModelData_fetched_once : preserves fetched_once' getModelData'.
Proof.
  intros w Hw. destruct (cachedModelData w) as [cached|] eqn:Hc.
  - by rewrite (getModelData_cached w cached).
  - rewrite getModelData_fetches by done.
    unfold fetched_once in Hw. rewrite Hc in Hw.
    destruct (fetch_arrayBuffer (fetches w)) as [modelData|e] eqn:Hfetch;
      unfold fetched_once; cbn [snd cachedModelData fetches].
    + exists (fetches w). done.
    + intros k Hk. destruct (decide (k = fetches w)) as [->|].
      * by rewrite Hfetch.
      * apply Hw. lia.
Qed.

Lemma ort_create_fetched_once (modelData : list Z) :
  preserves fetched_once' (ort_create InferenceSession_create modelData).
Proof. by intros w Hw. Qed.

Lemma now_fetched_once : preserves fetched_once' (now performance_now).
Proof. by intros w Hw. Qed.

Lemma createModelSession_fetched_once : preserves fetched_once' createModelSession'.
Proof.
  apply preserves_try_catch; [|intros; apply preserves_throw].
  apply preserves_bind; [apply getModelData_fetched_once|]. intros modelData.
  apply preserves_bind; [apply ort_create_fetched_once|]. intros session.
  apply preserves_ret.
Qed.

Lemma runResNetModel_fetched_once (data : list number) :
  preserves fetched_once' (runResNetModel' data).
Proof.
  apply preserves_bind; [apply createModelSession_fetched_once|]. intros session.
  apply preserves_try_catch; [|intros; apply preserves_throw].
  apply preserves_bind; [apply now_fetched_once|]. intros startTime.
  apply preserves_bind; [apply preserves_settle|]. intros outputTensor.
  apply preserves_bind; [apply now_fetched_once|]. intros endTime.
  destruct outputTensor as [[| |]|];
    first [apply preserves_throw | apply preserves_ret].
Qed.

Lemma run_call_fetched_once (c : call) (w : World) :
  fetched_once' w →
  fetched_once' (run_call fetch_arrayBuffer InferenceSession_create Session_run
                   performance_now labels c w).
Proof.
  intros Hw. destruct c as [| | |data|data]; cbn [run_call].
  - by apply getModelData_fetched_once.
  - by apply createModelSession_fetched_once.
  - revert w Hw. apply preserves_bind; [apply getModelData_fetched_once|].
    intros _. apply preserves_bind; [apply createModelSession_fetched_once|].
    intros _. apply preserves_ret.
  - by apply runResNetModel_fetched_once.
  - rewrite detectImage_unfold.
    pose proof (runResNetModel_fetched_once data (tick w)) as Hrun.
    destruct (runResNetModel' data (tick w)) as [[[out t]|e] w2];
      cbn [snd] in *; by apply Hrun.
Qed.

Lemma reachable_fetched_once (w : World) :
  reachable fetch_arrayBuffer InferenceSession_create Session_run
    performance_now labels w →
  fetched_once' w.
Proof.
  induction 1 as [|c w _ IH].
  - intros k Hk. cbn in Hk. lia.
  - by apply run_call_fetched_once.
Qed.

Lemma createModelSession_cached (w : World) (cached : list Z) :
  cachedModelData w = Some cached →
  createModelSession' w
  = (InferenceSession_create (length (sessions w)) cached,
     {| cachedModelData := cachedModelData w; fetches := fetches w;
        sessions := cached :: sessions w; clock_reads := clock_reads w |}).
Proof.
  intros Hc. unfold createModelSession, try_catch, mbind, M_bind.
  rewrite (getModelData_cached w cached Hc). unfold ort_create, throw, mret, M_ret.
  by destruct (InferenceSession_create (length (sessions w)) cached).
Qed.

(** An inference call with a populated cache: one session more, built from
    the cached bytes, and no fetch. *)
Lemma runResNetModel_cached (data : list number) (w : World) (cached : list Z) :
  cachedModelData w = Some cached →
  let w' := (runResNetModel' data w).2 in
  sessions w' = cached :: sessions w
  ∧ fetches w' = fetches w
  ∧ cachedModelData w' = Some cached.
Proof.
  intros Hc w'. subst w'.
  set (Q := λ v : World, sessions v = cached :: sessions w
                         ∧ fetches v = fetches w
                         ∧ cachedModelData v = Some cached).
  change (Q (runResNetModel' data w).2).
  unfold runResNetModel, mbind at 1, M_bind at 1.
  rewrite (createModelSession_cached w cached Hc).
  destruct (InferenceSession_create (length (sessions w)) cached)
    as [session|e]; [|done].
  match goal with |- Q (?m ?v).2 => enough (preserves Q m) as Hm end.
  { apply Hm. unfold Q. cbn [sessions fetches cachedModelData]. done. }
  assert (preserves Q (now performance_now)) as Hnow by (by intros v Hv).
  apply preserves_try_catch; [|intros; apply preserves_throw].
  apply preserves_bind; [done|]. intros startTime.
  apply preserves_bind; [apply preserves_settle|]. intros outputTensor.
  apply preserves_bind; [done|]. intros endTime.
  destruct outputTensor as [[| |]|];
    first [apply preserves_throw | apply preserves_ret].
Qed.

(** C7.  In every world a process can reach, the fetches made so far are
    failed attempts followed by at most one success whose bytes are the cached
    ones; a first successful fetch populates the cache; once the cache is
    populated the getter returns the cached bytes and leaves the world as it
    is (no fetch); and every inference call then creates one more session from
    the cached bytes, again without a fetch. *)
Theorem model_bytes_fetched_once (w : World) :
  reachable fetch_arrayBuffer InferenceSession_create Session_run
    performance_now labels w →
  fetched_once' w
  ∧ (∀ modelData,
       cachedModelData w = None →
       fetch_arrayBuffer (fetches w) = Resolved modelData →
       (getModelData' w).1 = Resolved modelData
       ∧ cachedModelData (getModelData' w).2 = Some modelData)
  ∧ (∀ cached,
       cachedModelData w = Some cached →
       getModelData' w = (Resolved cached, w)
       ∧ ∀ data,
           let w' := (runResNetModel' data w).2 in
           sessions w' = cached :: sessions w
           ∧ fetches w' = fetches w
           ∧ cachedModelData w' = Some cached).
Proof.
  intros Hreach. split; [by apply reachable_fetched_once|]. split.
  - intros modelData Hc Hfetch. rewrite getModelData_fetches by done.
    by rewrite Hfetch.
  - intros cached Hc. split; [by apply getModelData_cached|].
    intros data. by apply runResNetModel_cached.
Qed.

(** C6 (as amended).  [detectImage] never rejects.  When the inference call
    fails, whatever the error, it resolves to [null]; otherwise it resolves
    to a result holding the whole prediction list and the total time. *)
Theorem detectImage_outcome (preprocessedData : list number) (w : World) :
  ∃ r w',
    detectImage' preprocessedData w = (Resolved r, w')
    ∧ match runResNetModel' preprocessedData (tick w) with
      | (Rejected _, _) => r = None
      | (Resolved (outputData, _), w2) =>
          r = Some {|
            predictions := topPredictionsOf labels outputData;
            executionTimeMs :=
              Num.sub (performance_now (clock_reads w2))
                      (performance_now (clock_reads w)) |}
      end.
Proof.
  rewrite detectImage_unfold.
  destruct (runResNetModel' preprocessedData (tick w)) as [[[out t]|e] w2];
    eauto.
Qed.

(** C5 (as amended).  [detectImage] does not compare the number of scores with
    the number of labels.  Whenever the inference call yields scores, it
    resolves to a result with [min 10 n] predictions for the [n] scores, each
    labelled with the entry of the label table at its index, or with no label
    where the table has no such entry. *)
Theorem detectImage_any_lengths (preprocessedData outputData : list number)
    (inferenceTimeMs : number) (w w2 : World) :
  runResNetModel' preprocessedData (tick w)
    = (Resolved (outputData, inferenceTimeMs), w2) →
  ∃ result w',
    detectImage' preprocessedData w = (Resolved (Some result), w')
    ∧ length (predictions result) = 10 `min` length outputData
    ∧ Forall (λ p, label p = labels !! index p
                   ∧ (length labels ≤ index p → label p = None))
             (predictions result).
Proof.
  intros Hrun. rewrite detectImage_unfold, Hrun.
  eexists _, _. split; [done|]. cbn [predictions]. split.
  - apply length_topPredictionsOf.
  - eapply Forall_impl; [apply topPredictionsOf_entries|].
    intros p [Hlabel _]. split; [done|].
    intros Hge. rewrite Hlabel. by apply lookup_ge_None.
Qed.

End ModelFacts.

(** *** Examples on the sample collaborators *)

Lemma model_bytes_fetched_once_witness :
  let w := run_call SampleModel.fetch SampleModel.create (SampleModel.run [])
             SampleModel.clock [] call_initializeModel initial_world in
  reachable SampleModel.fetch SampleModel.create (SampleModel.run [])
    SampleModel.clock [] w
  ∧ fetched_once SampleModel.fetch w
  ∧ cachedModelData w = Some SampleModel.model_bytes
  ∧ getModelData SampleModel.fetch w = (Resolved SampleModel.model_bytes, w).
Proof.
  intros w.
  assert (reachable SampleModel.fetch SampleModel.create (SampleModel.run [])
            SampleModel.clock [] w) as Hreach
    by apply reachable_call, reachable_initial.
  destruct (model_bytes_fetched_once SampleModel.fetch SampleModel.create
              (SampleModel.run []) SampleModel.clock [] w Hreach)
    as (Honce & _ & Hcached).
  split; [exact Hreach|]. split; [exact Honce|]. split; [reflexivity|].
  exact (proj1 (Hcached SampleModel.model_bytes eq_refl)).
Defined.

(** One initialisation and two classifications: one fetch, three sessions, each
    built from the same cached bytes. *)
Example one_fetch_three_sessions :
  let step c := run_call SampleModel.fetch SampleModel.create (SampleModel.run [])
                  SampleModel.clock [] c in
  let w := step (call_detectImage [])
             (step (call_detectImage []) (step call_initializeModel initial_world)) in
  fetches w = 1
  ∧ sessions w = replicate 3 SampleModel.model_bytes
  ∧ cachedModelData w = Some SampleModel.model_bytes.
Proof. by vm_compute. Qed.

Lemma detectImage_any_lengths_witness :
  ∃ result w',
    detectImage SampleModel.fetch SampleModel.create
      (SampleModel.run [Fin 1; Fin 2]) SampleModel.clock ["a"] [] initial_world
    = (Resolved (Some result), w')
    ∧ length (predictions result) = 10 `min` length [Fin 1; Fin 2]
    ∧ Forall (λ p, label p = ["a"] !! index p
                   ∧ (length ["a"] ≤ index p → label p = None))
             (predictions result).
Proof.
  eapply (detectImage_any_lengths SampleModel.fetch SampleModel.create
            (SampleModel.run [Fin 1; Fin 2]) SampleModel.clock ["a"] []).
  reflexivity.
Defined.

(** C5 (as stated) fails: with two scores and one label [detectImage] resolves
    to a result with two predictions. *)
Lemma detectImage_length_mismatch :
  let labels := ["a"] in
  let outputData := [Fin 1; Fin 2] in
  length outputData ≠ length labels
  ∧ ∃ result w',
      detectImage SampleModel.fetch SampleModel.create
        (SampleModel.run outputData) SampleModel.clock labels [] initial_world
      = (Resolved (Some result), w')
      ∧ length (predictions result) = 2.
Proof.
  intros labels outputData. split; [simpl; lia|].
  eexists _, _. split.
  - rewrite detectImage_unfold. reflexivity.
  - cbn [predictions]. by rewrite length_topPredictionsOf.
Qed.

(** C6 (as stated) fails: when the run of the session is rejected, the
    inference call is rejected with that error, and [detectImage] resolves to
    [null]: the error does not reach the caller. *)
Lemma detectImage_swallows_error :
  (runResNetModel SampleModel.fetch SampleModel.create SampleModel.failing_run
     SampleModel.clock [] (tick initial_world)).1 = Rejected (Thrown 3)
  ∧ (detectImage SampleModel.fetch SampleModel.create SampleModel.failing_run
       SampleModel.clock [] [] initial_world).1 = Resolved None.
Proof. split; reflexivity. Qed.

(** ** Preprocessing: determinism and the alpha channel *)


Lemma Array_from_ext {A} (n : nat) (f1 f2 : nat → A) :
  (∀ i, i < n → f1 i = f2 i) → Array_from n f1 = Array_from n f2.
Proof.
  intros Hf. unfold Array_from. apply list_fmap_ext.
  intros i x Hx%lookup_seq. apply Hf. lia.
Qed.

Lemma normalizedValue_same_rgb (image1 image2 : JimpImage) (c h w : nat) :
  same_rgb (intToRGBA (getPixelColor image1 w h))
           (intToRGBA (getPixelColor image2 w h)) →
  normalizedValue image1 c h w = normalizedValue image2 c h w.
Proof.
  intros (Hr & Hg & Hb). unfold normalizedValue. cbv zeta.
  rewrite Hr, Hg, Hb. done.
Qed.

Lemma pixelData_same_rgb (image1 image2 : JimpImage) :
  (∀ w h, w < 224 → h < 224 →
     same_rgb (intToRGBA (getPixelColor image1 w h))
              (intToRGBA (getPixelColor image2 w h))) →
  Array_from 3 (λ c, Array_from 224 (λ h,
    Array_from 224 (λ w, normalizedValue image1 c h w)))
  = Array_from 3 (λ c, Array_from 224 (λ h,
      Array_from 224 (λ w, normalizedValue image2 c h w))).
Proof.
  intros Hsame.
  apply Array_from_ext. intros c _.
  apply Array_from_ext. intros h Hh.
  apply Array_from_ext. intros w Hw.
  apply normalizedValue_same_rgb. by apply Hsame.
Qed.



(** The same for [preprocessImage], for two inputs that decode to images whose
    resized versions agree on red, green and blue. *)
Corollary preprocessImage_same_rgb {Input : Type}
    (Jimp_read : Input → outcome JimpImage)
    (Jimp_resize : nat → nat → JimpImage → JimpImage)
    (input1 input2 : Input) (image1 image2 : JimpImage) (world : World) :
  Jimp_read input1 = Resolved image1 → Jimp_read input2 = Resolved image2 →
  (∀ w h, w < 224 → h < 224 →
     same_rgb (intToRGBA (getPixelColor (Jimp_resize 224 224 image1) w h))
              (intToRGBA (getPixelColor (Jimp_resize 224 224 image2) w h))) →
  preprocessImage Jimp_read Jimp_resize input1 world
  = preprocessImage Jimp_read Jimp_resize input2 world.
Proof.
  intros H1 H2 Hsame.
  unfold preprocessImage, mbind, M_bind, settle, mret, M_ret.
  rewrite H1, H2. rewrite !processPixels_flat.
  by rewrite (pixelData_same_rgb _ _ Hsame).
Qed.

(** ** The pixel reader *)

(** [intToRGBA] undoes the packing of four bytes into one integer. *)
Lemma intToRGBA_bytes (red green blue alpha : Z) :
  (0 ≤ red < 256 → 0 ≤ green < 256 → 0 ≤ blue < 256 → 0 ≤ alpha < 256 →
   intToRGBA (red * 2 ^ 24 + green * 2 ^ 16 + blue * 2 ^ 8 + alpha)
   = {| r := red; g := green; b := blue; a := alpha |})%Z.
Proof.
  intros Hr Hg Hb Ha. unfold intToRGBA. cbv zeta.
  change (256 ^ 3)%Z with 16777216%Z. change (256 ^ 2)%Z with 65536%Z.
  change (2 ^ 24)%Z with 16777216%Z. change (2 ^ 16)%Z with 65536%Z.
  change (2 ^ 8)%Z with 256%Z.
  assert ((red * 16777216 + green * 65536 + blue * 256 + alpha) `div` 16777216
          = red)%Z as ->.
  { symmetry. apply (Z.div_unique _ _ _ (green * 65536 + blue * 256 + alpha)%Z); lia. }
  assert ((red * 16777216 + green * 65536 + blue * 256 + alpha - red * 16777216)
            `div` 65536 = green)%Z as ->.
  { symmetry. apply (Z.div_unique _ _ _ (blue * 256 + alpha)%Z); lia. }
  assert ((red * 16777216 + green * 65536 + blue * 256 + alpha - red * 16777216
           - green * 65536) `div` 256 = blue)%Z as ->.
  { symmetry. apply (Z.div_unique _ _ _ alpha); lia. }
  rewrite Z.pow_0_r, Z.div_1_r. f_equal. lia.
Qed.

(** On a bitmap of bytes, the channel value that [normalizedValue] reads for
    an in-range pixel is the byte of that channel in [bitmap.data]. *)
Lemma channel_is_byte (image : JimpImage) (c h w : nat)
    (red green blue alpha : Z) :
  c < 3 → w < bitmap_width image → h < bitmap_height image →
  let offset := (bitmap_width image * h + w) * 4 in
  bitmap_data image !! offset = Some red →
  bitmap_data image !! (offset + 1) = Some green →
  bitmap_data image !! (offset + 2) = Some blue →
  bitmap_data image !! (offset + 3) = Some alpha →
  (0 ≤ red < 256 → 0 ≤ green < 256 → 0 ≤ blue < 256 → 0 ≤ alpha < 256 →
   channel_of c (intToRGBA (getPixelColor image w h))
   = match c with O => red | S O => green | _ => blue end)%Z.
Proof.
  intros Hc Hw Hh offset H0 H1 H2 H3 Hr Hg Hb Ha.
  unfold getPixelColor, getPixelIndex, readUInt32BE. cbv zeta.
  destruct (Nat.leb_spec (bitmap_width image) w); [lia|].
  destruct (Nat.leb_spec (bitmap_height image) h); [lia|].
  fold offset. rewrite Nat.add_0_r, H0, H1, H2, H3. cbn [default from_option Datatypes.id].
  rewrite intToRGBA_bytes by done.
  by destruct c as [|[|c]].
Qed.

(** A red pixel (255, 0, 0): the values of the three channels, as in the
    solid-red scenario of the specification. *)
Example red_pixel_values :
  processPixels opaque_red !! (0 * 224 * 224 + 0 * 224 + 0)
    = Some (Fin ((1 - 0.485) / 0.229))
  ∧ processPixels opaque_red !! (1 * 224 * 224 + 0 * 224 + 0)
    = Some (Fin ((0 - 0.456) / 0.224))
  ∧ processPixels opaque_red !! (2 * 224 * 224 + 0 * 224 + 0)
    = Some (Fin ((0 - 0.406) / 0.225)).
Proof.
  split; [|split]; rewrite lookup_processPixels, normalizedValue_eq by lia;
    do 2 f_equal; cbn [mean_of std_of];
    match goal with
    | |- context [IZR ?p] =>
        let v := eval vm_compute in p in change p with v
    end; lra.
Qed.

(** ** The ranking scenario of the specification

    Logits [1, 2, 3] with labels a, b, c: the list is c, b, a (all three, since
    there are fewer than ten). *)
Example ranking_of_1_2_3 :
  (λ p, (label p, index p)) <$> topPredictionsOf ["a"; "b"; "c"] [Fin 1; Fin 2; Fin 3]
  = [(Some "c", 2); (Some "b", 1); (Some "a", 0)].
Proof.
  unfold topPredictionsOf, slice0, map_indexed. cbv zeta.
  change [Fin 1; Fin 2; Fin 3] with (Fin <$> [1; 2; 3]%R).
  rewrite (computeSoftmax_finite 1 [2; 3]%R). cbv zeta.
  set (m := foldl Rmax 1%R [2%R; 3%R]).
  set (sum := foldl Rplus 0%R (expScores_of m [1; 2; 3]%R)).
  assert (0 < sum)%R as Hsum by apply expScores_sum_pos.
  cbn [expScores_of fmap list_fmap imap].
  set (p1 := (Rtrigo_def.exp (1 - m) / sum)%R).
  set (p2 := (Rtrigo_def.exp (2 - m) / sum)%R).
  set (p3 := (Rtrigo_def.exp (3 - m) / sum)%R).
  assert (p1 < p2 < p3)%R as [H12 H23].
  { unfold p1, p2, p3, Rdiv. split; apply Rmult_lt_compat_r;
      try (by apply Rinv_0_lt_compat); apply exp_increasing; lra. }
  assert (∀ x y i j, (x < y)%R →
            sorts_after (Num.sub (iscore {| iscore := Fin y; iindex := j |})
                                 (iscore {| iscore := Fin x; iindex := i |})) = true)
    as Hafter.
  { intros x y i j Hxy. unfold sorts_after. cbn [iscore Num.sub Num.neg Num.add Num.ltb].
    destruct (Rlt_dec 0 (y + - x)); [done | lra]. }
  unfold compose. cbn [Array_sort foldr sort_insert].
  rewrite (Hafter p2 p3) by done. cbn [sort_insert].
  rewrite (Hafter p1 p3) by lra. cbn [sort_insert].
  rewrite (Hafter p1 p2) by done. cbn [sort_insert].
  reflexivity.
Qed.

(** * Further properties of model.ts *)

(** ** The functions of model.ts, outcome by outcome *)

Section ModelSteps.
Context {Session : Type}.
Variable fetch_arrayBuffer : nat → outcome (list Z).
Variable InferenceSession_create : nat → list Z → outcome Session.
Variable Session_run : Session → list number → outcome (option OutputValue).
Variable performance_now : nat → number.
Variable labels : list string.

Local Abbreviation getModelData' := (getModelData fetch_arrayBuffer).
Local Abbreviation createModelSession' :=
  (createModelSession fetch_arrayBuffer InferenceSession_create).
Local Abbreviation initializeModel' :=
  (initializeModel fetch_arrayBuffer InferenceSession_create).
Local Abbreviation runResNetModel' :=
  (runResNetModel fetch_arrayBuffer InferenceSession_create Session_run
     performance_now).
Local Abbreviation detectImage' :=
  (detectImage fetch_arrayBuffer InferenceSession_create Session_run
     performance_now labels).
Local Abbreviation run_call' :=
  (run_call fetch_arrayBuffer InferenceSession_create Session_run
     performance_now labels).
Local Abbreviation reachable' :=
  (reachable fetch_arrayBuffer InferenceSession_create Session_run
     performance_now labels).

Lemma createModelSession_unfold (w : World) :
  createModelSession' w
  = match getModelData' w with
    | (Resolved modelData, w1) =>
        (InferenceSession_create (length (sessions w1)) modelData,
         {| cachedModelData := cachedModelData w1; fetches := fetches w1;
            sessions := modelData :: sessions w1; clock_reads := clock_reads w1 |})
    | (Rejected e, w1) => (Rejected e, w1)
    end.
Proof.
  unfold createModelSession, try_catch, mbind, M_bind, ort_create, throw, mret, M_ret.
  destruct (getModelData' w) as [[modelData|e] w1]; [|done].
  by destruct (InferenceSession_create (length (sessions w1)) modelData).
Qed.

Lemma runResNetModel_unfold (preprocessedData : list number) (w : World) :
  runResNetModel' preprocessedData w
  = match createModelSession' w with
    | (Rejected e, w1) => (Rejected e, w1)
    | (Resolved session, w1) =>
        match Session_run session preprocessedData with
        | Rejected e => (Rejected e, tick w1)
        | Resolved (Some (Float32Data data)) =>
            (Resolved (data,
                       Num.sub (performance_now (S (clock_reads w1)))
                               (performance_now (clock_reads w1))),
             tick (tick w1))
        | Resolved (Some OtherData) =>
            (Rejected (Error "出力データが予期しない型です"), tick (tick w1))
        | Resolved (Some WithoutData) | Resolved None =>
            (Rejected (Error "出力テンソルの形式が不正です"), tick (tick w1))
        end
    end.
Proof.
  unfold runResNetModel, mbind at 1, M_bind at 1.
  destruct (createModelSession' w) as [[session|e] w1]; [|done].
  unfold try_catch, mbind, M_bind, now, settle, throw, mret, M_ret. fold (tick w1).
  destruct (Session_run session preprocessedData) as [[[| |]|]|]; done.
Qed.

Lemma initializeModel_unfold (w : World) :
  initializeModel' w
  = match getModelData' w with
    | (Resolved _, w1) =>
        match createModelSession' w1 with
        | (Resolved _, w2) => (Resolved (), w2)
        | (Rejected e, w2) => (Rejected e, w2)
        end
    | (Rejected e, w1) => (Rejected e, w1)
    end.
Proof.
  unfold initializeModel, mbind, M_bind, mret, M_ret.
  destruct (getModelData' w) as [[modelData|e] w1]; [|done].
  by destruct (createModelSession' w1) as [[session|e] w2].
Qed.

(** What [getModelData] does to the world, whatever the state of the cache. *)
Lemma getModelData_world (w : World) :
  sessions (getModelData' w).2 = sessions w
  ∧ clock_reads (getModelData' w).2 = clock_reads w
  ∧ (∀ cached, cachedModelData w = Some cached →
       getModelData' w = (Resolved cached, w))
  ∧ (cachedModelData w = None → fetches (getModelData' w).2 = S (fetches w))
  ∧ (∀ modelData, (getModelData' w).1 = Resolved modelData →
       cachedModelData (getModelData' w).2 = Some modelData)
  ∧ (is_rejected (getModelData' w).1 →
       cachedModelData w = None ∧ cachedModelData (getModelData' w).2 = None).
Proof.
  destruct (cachedModelData w) as [cached|] eqn:Hc.
  - rewrite (getModelData_cached _ w cached Hc). cbn [fst snd].
    repeat split; try done.
    + by intros ? [= ->].
    + by intros ? [= ->].
  - rewrite (getModelData_fetches _ w Hc).
    destruct (fetch_arrayBuffer (fetches w)) as [modelData|e]; cbn [fst snd];
      repeat split; try done.
    by intros ? [= ->].
Qed.

(** X1.  A failed fetch is not cached: the error is passed on and the cache
    stays empty, so the next call fetches again, and its success populates the
    cache. *)
Theorem getModelData_retries_failed_fetch (w : World) (e : error)
    (modelData : list Z) :
  cachedModelData w = None →
  fetch_arrayBuffer (fetches w) = Rejected e →
  fetch_arrayBuffer (S (fetches w)) = Resolved modelData →
  let w1 := (getModelData' w).2 in
  (getModelData' w).1 = Rejected e
  ∧ cachedModelData w1 = None
  ∧ getModelData' w1
    = (Resolved modelData,
       {| cachedModelData := Some modelData; fetches := S (S (fetches w));
          sessions := sessions w; clock_reads := clock_reads w |}).
Proof.
  intros Hc Hfail Hok w1. subst w1.
  rewrite (getModelData_fetches _ w Hc), Hfail. cbn [fst snd].
  split; [done|]. split; [done|].
  rewrite getModelData_fetches by done. cbn [fetches]. by rewrite Hok.
Qed.

(** With the cache populated, a function of model.ts leaves the cache and the
    number of fetches as they are. *)
Lemma createModelSession_keeps_cache (w : World) (cached : list Z) :
  cachedModelData w = Some cached →
  cachedModelData (createModelSession' w).2 = Some cached
  ∧ fetches (createModelSession' w).2 = fetches w.
Proof.
  intros Hc. by rewrite (createModelSession_cached _ _ w cached Hc).
Qed.

Lemma runResNetModel_keeps_cache (data : list number) (w : World) (cached : list Z) :
  cachedModelData w = Some cached →
  cachedModelData (runResNetModel' data w).2 = Some cached
  ∧ fetches (runResNetModel' data w).2 = fetches w.
Proof.
  intros Hc.
  destruct (runResNetModel_cached fetch_arrayBuffer InferenceSession_create
              Session_run performance_now data w cached Hc) as (_ & ? & ?).
  done.
Qed.

(** X2.  No call invalidates the cache: once the model bytes are cached, every
    function of model.ts leaves the same bytes in the cache, and fetches
    nothing. *)
Theorem calls_keep_cache (c : call) (w : World) (cached : list Z) :
  cachedModelData w = Some cached →
  cachedModelData (run_call' c w) = Some cached
  ∧ fetches (run_call' c w) = fetches w.
Proof.
  intros Hc. destruct c as [| | |data|data]; cbn [run_call].
  - by rewrite (getModelData_cached _ w cached Hc).
  - by apply createModelSession_keeps_cache.
  - rewrite initializeModel_unfold, (getModelData_cached _ w cached Hc).
    pose proof (createModelSession_keeps_cache w cached Hc) as Hs.
    by destruct (createModelSession' w) as [[session|e] w2].
  - by apply runResNetModel_keeps_cache.
  - rewrite detectImage_unfold.
    pose proof (runResNetModel_keeps_cache data (tick w) cached Hc) as Hr.
    by destruct (runResNetModel' data (tick w)) as [[[out t]|e] w2].
Qed.

Lemma createModelSession_fetches (w : World) :
  fetches w ≤ fetches (createModelSession' w).2 ≤ S (fetches w).
Proof.
  rewrite createModelSession_unfold.
  destruct (getModelData_world w) as (_ & _ & Hcached & Hnone & _).
  destruct (cachedModelData w) as [cached|] eqn:Hc.
  - rewrite (Hcached cached eq_refl). cbn [snd fetches]. lia.
  - specialize (Hnone eq_refl).
    destruct (getModelData' w) as [[modelData|e] w1]; cbn [snd fetches] in *; lia.
Qed.

Lemma runResNetModel_fetches (data : list number) (w : World) :
  fetches (runResNetModel' data w).2 = fetches (createModelSession' w).2.
Proof.
  rewrite runResNetModel_unfold.
  destruct (createModelSession' w) as [[session|e] w1]; [|done].
  by destruct (Session_run session data) as [[[| |]|]|].
Qed.

(** X3.  A call fetches the model file at most once, whatever fails on the
    way; the number of fetches never decreases. *)
Theorem calls_fetch_at_most_once (c : call) (w : World) :
  fetches w ≤ fetches (run_call' c w) ≤ S (fetches w).
Proof.
  destruct c as [| | |data|data]; cbn [run_call].
  - destruct (getModelData_world w) as (_ & _ & Hcached & Hnone & _).
    destruct (cachedModelData w) as [cached|] eqn:Hc.
    + rewrite (Hcached cached eq_refl). cbn [snd]. lia.
    + rewrite (Hnone eq_refl). lia.
  - apply createModelSession_fetches.
  - rewrite initializeModel_unfold.
    destruct (getModelData_world w) as (_ & _ & Hcached & Hnone & Hres & _).
    destruct (getModelData' w) as [[modelData|e] w1] eqn:Hg; cbn [fst snd] in *.
    + specialize (Hres modelData eq_refl).
      pose proof (createModelSession_keeps_cache w1 modelData Hres) as [_ Hf].
      assert (fetches w ≤ fetches w1 ≤ S (fetches w)) as Hw1.
      { destruct (cachedModelData w) as [cached|].
        - specialize (Hcached cached eq_refl). simplify_eq. lia.
        - rewrite (Hnone eq_refl). lia. }
      destruct (createModelSession' w1) as [[session|e] w2]; cbn [snd] in *; lia.
    + destruct (cachedModelData w) as [cached|].
      * by specialize (Hcached cached eq_refl).
      * rewrite (Hnone eq_refl). lia.
  - rewrite runResNetModel_fetches. apply createModelSession_fetches.
  - rewrite detectImage_unfold.
    pose proof (runResNetModel_fetches data (tick w)) as Hr.
    pose proof (createModelSession_fetches (tick w)) as Hs.
    destruct (runResNetModel' data (tick w)) as [[[out t]|e] w2];
      cbn [snd fetches tick] in *; lia.
Qed.

(** *** Sessions *)

Lemma sessions_from_cache_tick (w : World) :
  sessions_from_cache w → sessions_from_cache (tick w).
Proof. done. Qed.

Lemma getModelData_sessions_from_cache (w : World) :
  sessions_from_cache w → sessions_from_cache (getModelData' w).2.
Proof.
  intros Hinv modelData.
  destruct (getModelData_world w) as (Hs & _ & Hcached & _ & _ & _).
  rewrite Hs. intros Hin. specialize (Hinv modelData Hin).
  by rewrite (Hcached modelData Hinv).
Qed.

Lemma createModelSession_sessions_from_cache (w : World) :
  sessions_from_cache w → sessions_from_cache (createModelSession' w).2.
Proof.
  intros Hinv. rewrite createModelSession_unfold.
  pose proof (getModelData_sessions_from_cache w Hinv) as Hinv1.
  destruct (getModelData_world w) as (_ & _ & _ & _ & Hres & _).
  destruct (getModelData' w) as [[modelData|e] w1]; cbn [fst snd] in *; [|done].
  specialize (Hres modelData eq_refl).
  intros s. cbn [sessions cachedModelData].
  intros [->|Hin]%elem_of_cons; [done|]. by apply Hinv1.
Qed.

Lemma runResNetModel_sessions_from_cache (data : list number) (w : World) :
  sessions_from_cache w → sessions_from_cache (runResNetModel' data w).2.
Proof.
  intros Hinv. rewrite runResNetModel_unfold.
  pose proof (createModelSession_sessions_from_cache w Hinv) as Hinv1.
  destruct (createModelSession' w) as [[session|e] w1]; [|done].
  by destruct (Session_run session data) as [[[| |]|]|].
Qed.

(** X4.  In every world a process can reach, every session ever created was
    built from the bytes that are in the cache: no session is created from
    other bytes, and none before the cache is populated. *)
Theorem sessions_built_from_cache (w : World) :
  reachable' w → sessions_from_cache w.
Proof.
  induction 1 as [|c w _ IH].
  - intros modelData Hin. by apply elem_of_nil in Hin.
  - destruct c as [| | |data|data]; cbn [run_call].
    + by apply getModelData_sessions_from_cache.
    + by apply createModelSession_sessions_from_cache.
    + rewrite initializeModel_unfold.
      pose proof (getModelData_sessions_from_cache w IH) as Hinv1.
      destruct (getModelData' w) as [[modelData|e] w1]; [|done].
      pose proof (createModelSession_sessions_from_cache w1 Hinv1) as Hinv2.
      by destruct (createModelSession' w1) as [[session|e] w2].
    + by apply runResNetModel_sessions_from_cache.
    + rewrite detectImage_unfold.
      pose proof (runResNetModel_sessions_from_cache data (tick w)
                    (sessions_from_cache_tick w IH)) as Hinv1.
      by destruct (runResNetModel' data (tick w)) as [[[out t]|e] w2].
Qed.

(** X5.  When [initializeModel] resolves, the cache is populated and exactly
    one session has been created from the cached bytes (and dropped: the
    function returns nothing); the clock is not read. *)
Theorem initializeModel_resolved (w w' : World) :
  initializeModel' w = (Resolved (), w') →
  ∃ modelData,
    cachedModelData w' = Some modelData
    ∧ sessions w' = modelData :: sessions w
    ∧ clock_reads w' = clock_reads w
    ∧ fetches w' = match cachedModelData w with
                   | Some _ => fetches w
                   | None => S (fetches w)
                   end.
Proof.
  rewrite initializeModel_unfold.
  destruct (getModelData_world w) as (Hs & Hclock & Hcached & Hnone & Hres & _).
  destruct (getModelData' w) as [[modelData|e] w1] eqn:Hg; cbn [fst snd] in *;
    [|done].
  specialize (Hres modelData eq_refl).
  rewrite (createModelSession_cached _ _ w1 modelData Hres).
  destruct (InferenceSession_create (length (sessions w1)) modelData); [|done].
  intros [= <-]. exists modelData. cbn [cachedModelData sessions clock_reads fetches].
  rewrite Hs, Hclock. repeat split; try done.
  destruct (cachedModelData w) as [cached|].
  - by specialize (Hcached cached eq_refl) as [= _ ->].
  - by apply Hnone.
Qed.

(** X6.  When [runResNetModel] resolves, the session it created ran and
    yielded a [Float32Array], which is the data returned, unchanged; the time
    returned is the difference of two consecutive readings of the clock, both
    taken after the session was created. *)
Theorem runResNetModel_resolved (preprocessedData outputData : list number)
    (executionTimeMs : number) (w w' : World) :
  runResNetModel' preprocessedData w
    = (Resolved (outputData, executionTimeMs), w') →
  ∃ session w1,
    createModelSession' w = (Resolved session, w1)
    ∧ Session_run session preprocessedData
      = Resolved (Some (Float32Data outputData))
    ∧ executionTimeMs
      = Num.sub (performance_now (S (clock_reads w)))
                (performance_now (clock_reads w))
    ∧ w' = tick (tick w1).
Proof.
  rewrite runResNetModel_unfold.
  assert (clock_reads (createModelSession' w).2 = clock_reads w) as Hclock.
  { rewrite createModelSession_unfold.
    destruct (getModelData_world w) as (_ & Hclock & _).
    by destruct (getModelData' w) as [[modelData|e] w1]. }
  destruct (createModelSession' w) as [[session|e] w1]; [|done].
  cbn [snd] in Hclock.
  destruct (Session_run session preprocessedData) as [[[|data|]|]|] eqn:Hrun;
    try done.
  intros [= <- <- <-]. exists session, w1. rewrite Hclock. by repeat split.
Qed.

(** X7.  When the run yields no [resnetv17_dense0_fwd] entry, or one whose
    data is not a [Float32Array], [runResNetModel] is rejected with an [Error]
    of its own and returns no data. *)
Theorem runResNetModel_bad_output (preprocessedData : list number)
    (output : option OutputValue) (session : Session) (w w1 : World) :
  createModelSession' w = (Resolved session, w1) →
  Session_run session preprocessedData = Resolved output →
  (∀ data, output ≠ Some (Float32Data data)) →
  ∃ message,
    runResNetModel' preprocessedData w
    = (Rejected (Error message), tick (tick w1)).
Proof.
  intros Hcreate Hrun Hbad. rewrite runResNetModel_unfold, Hcreate, Hrun.
  destruct output as [[|data|]|]; eauto. by destruct (Hbad data).
Qed.

End ModelSteps.

(** *** The same on the sample collaborators *)

Lemma getModelData_retries_failed_fetch_witness :
  let w1 := (getModelData SampleFaults.flaky_fetch initial_world).2 in
  (getModelData SampleFaults.flaky_fetch initial_world).1 = Rejected (Thrown 2)
  ∧ cachedModelData w1 = None
  ∧ getModelData SampleFaults.flaky_fetch w1
    = (Resolved SampleModel.model_bytes,
       {| cachedModelData := Some SampleModel.model_bytes;
          fetches := S (S (fetches initial_world));
          sessions := sessions initial_world;
          clock_reads := clock_reads initial_world |}).
Proof.
  apply (getModelData_retries_failed_fetch SampleFaults.flaky_fetch initial_world
           (Thrown 2) SampleModel.model_bytes); reflexivity.
Defined.

Lemma calls_keep_cache_witness :
  let run := run_call SampleModel.fetch SampleModel.create (SampleModel.run [])
               SampleModel.clock [] in
  let w := run call_initializeModel initial_world in
  cachedModelData (run (call_detectImage []) w) = Some SampleModel.model_bytes
  ∧ fetches (run (call_detectImage []) w) = fetches w.
Proof.
  intros run w.
  apply (calls_keep_cache SampleModel.fetch SampleModel.create (SampleModel.run [])
           SampleModel.clock [] (call_detectImage []) w SampleModel.model_bytes).
  reflexivity.
Defined.

Lemma sessions_built_from_cache_witness :
  let run := run_call SampleModel.fetch SampleModel.create (SampleModel.run [])
               SampleModel.clock [] in
  sessions_from_cache (run (call_detectImage []) (run call_initializeModel initial_world)).
Proof.
  intros run.
  apply (sessions_built_from_cache SampleModel.fetch SampleModel.create
           (SampleModel.run []) SampleModel.clock []).
  apply reachable_call, reachable_call, reachable_initial.
Defined.

Lemma initializeModel_resolved_witness :
  let w' := {| cachedModelData := Some SampleModel.model_bytes; fetches := 1;
               sessions := [SampleModel.model_bytes]; clock_reads := 0 |} in
  ∃ modelData,
    cachedModelData w' = Some modelData
    ∧ sessions w' = modelData :: sessions initial_world
    ∧ clock_reads w' = clock_reads initial_world
    ∧ fetches w' = match cachedModelData initial_world with
                   | Some _ => fetches initial_world
                   | None => S (fetches initial_world)
                   end.
Proof.
  intros w'.
  apply (initializeModel_resolved SampleModel.fetch SampleModel.create
           initial_world w').
  reflexivity.
Defined.

Lemma runResNetModel_resolved_witness :
  ∃ session w1,
    createModelSession SampleModel.fetch SampleModel.create initial_world
      = (Resolved session, w1)
    ∧ SampleModel.run [Fin 1; Fin 2] session []
      = Resolved (Some (Float32Data [Fin 1; Fin 2]))
    ∧ Num.sub (SampleModel.clock 1) (SampleModel.clock 0)
      = Num.sub (SampleModel.clock (S (clock_reads initial_world)))
                (SampleModel.clock (clock_reads initial_world))
    ∧ {| cachedModelData := Some SampleModel.model_bytes; fetches := 1;
         sessions := [SampleModel.model_bytes]; clock_reads := 2 |}
      = tick (tick w1).
Proof.
  apply (runResNetModel_resolved SampleModel.fetch SampleModel.create
           (SampleModel.run [Fin 1; Fin 2]) SampleModel.clock [] [Fin 1; Fin 2]).
  reflexivity.
Defined.

Lemma runResNetModel_bad_output_witness :
  ∃ message,
    runResNetModel SampleModel.fetch SampleModel.create
      SampleFaults.run_with_other_data SampleModel.clock [] initial_world
    = (Rejected (Error message),
       tick (tick {| cachedModelData := Some SampleModel.model_bytes;
                     fetches := 1; sessions := [SampleModel.model_bytes];
                     clock_reads := 0 |})).
Proof.
  apply (runResNetModel_bad_output SampleModel.fetch SampleModel.create
           SampleFaults.run_with_other_data SampleModel.clock []
           (Some OtherData) 0); [reflexivity | reflexivity | done].
Defined.

(** * Further properties of softmax *)

Section SoftmaxMore.
Local Open Scope R_scope.






Lemma foldl_max2_NaN (l : list number) : foldl Num.max2 NaN l = NaN.
Proof. induction l as [|p l IH]; [done|]. exact IH. Qed.

Lemma max2_NaN_r (p : number) : Num.max2 p NaN = NaN.
Proof. by destruct p. Qed.

Lemma Math_max_NaN (acc : number) (l : list number) :
  NaN ∈ l → foldl Num.max2 acc l = NaN.
Proof.
  revert acc. induction l as [|p l IH]; intros acc Hin.
  - by apply elem_of_nil in Hin.
  - cbn [foldl]. apply elem_of_cons in Hin as [<- | Hin].
    + rewrite max2_NaN_r. apply foldl_max2_NaN.
    + by apply IH.
Qed.

Lemma foldl_max2_PosInf (l : list number) :
  NaN ∉ l → foldl Num.max2 PosInf l = PosInf.
Proof.
  induction l as [|p l IH]; [done|]. intros Hnan.
  apply not_elem_of_cons in Hnan as [Hp Hnan]. cbn [foldl].
  destruct p; try done; by apply IH.
Qed.

Lemma Math_max_PosInf (acc : number) (l : list number) :
  acc ≠ NaN → NaN ∉ l → PosInf ∈ l → foldl Num.max2 acc l = PosInf.
Proof.
  revert acc. induction l as [|p l IH]; intros acc Hacc Hnan Hin.
  - by apply elem_of_nil in Hin.
  - apply not_elem_of_cons in Hnan as [Hp Hnan]. cbn [foldl].
    apply elem_of_cons in Hin as [<- | Hin].
    + assert (Num.max2 acc PosInf = PosInf) as -> by by destruct acc.
      by apply foldl_max2_PosInf.
    + apply IH; [|done..].
      destruct acc, p; try done; cbn; by destruct (Rlt_dec _ _).
Qed.

Lemma NaN_elem_or_not (l : list number) : NaN ∈ l ∨ NaN ∉ l.
Proof.
  induction l as [|p l [IH|IH]].
  - right. apply not_elem_of_nil.
  - left. by apply elem_of_cons; right.
  - destruct p as [| | |x]; [left; by apply elem_of_cons; left|..];
      right; by apply not_elem_of_cons.
Qed.

Lemma total_NaN_from (l : list number) :
  foldl (λ sum p, Num.add sum p) NaN l = NaN.
Proof. induction l as [|p l IH]; [done|]. exact IH. Qed.

Lemma total_with_NaN (acc : number) (l : list number) :
  NaN ∈ l → foldl (λ sum p, Num.add sum p) acc l = NaN.
Proof.
  revert acc. induction l as [|p l IH]; intros acc Hin.
  - by apply elem_of_nil in Hin.
  - cbn [foldl]. apply elem_of_cons in Hin as [<- | Hin].
    + assert (Num.add acc NaN = NaN) as -> by by destruct acc.
      apply total_NaN_from.
    + by apply IH.
Qed.

Lemma div_NaN (p : number) : Num.div p NaN = NaN.
Proof. by destruct p. Qed.

(** A [NaN] among the exponentials makes the sum, and with it every element of
    the output, [NaN]. *)
Lemma computeSoftmax_NaN_expScore (logits : list number) :
  NaN ∈ (λ logit, Num.exp (Num.sub logit (Num.Math_max logits))) <$> logits →
  computeSoftmax logits = replicate (length logits) NaN.
Proof.
  intros Hnan. unfold computeSoftmax. cbv zeta.
  set (maxLogit := Num.Math_max logits) in *.
  set (expScores := (λ logit, Num.exp (Num.sub logit maxLogit)) <$> logits) in *.
  unfold reduce. rewrite (total_with_NaN _ _ Hnan).
  rewrite <- (length_fmap (λ logit, Num.exp (Num.sub logit maxLogit)) logits).
  fold expScores. clear. induction expScores as [|e es IH]; [done|].
  cbn [fmap list_fmap length replicate]. rewrite div_NaN. f_equal. exact IH.
Qed.

Lemma expScore_NaN_of_NaN (logits : list number) :
  NaN ∈ logits →
  NaN ∈ (λ logit, Num.exp (Num.sub logit (Num.Math_max logits))) <$> logits.
Proof.
  intros Hin. apply list_elem_of_fmap. exists NaN. split; [|done].
  unfold Num.Math_max. by rewrite Math_max_NaN.
Qed.

Lemma expScore_NaN_of_PosInf (logits : list number) :
  NaN ∉ logits → PosInf ∈ logits →
  NaN ∈ (λ logit, Num.exp (Num.sub logit (Num.Math_max logits))) <$> logits.
Proof.
  intros Hnan Hinf. apply list_elem_of_fmap. exists PosInf. split; [|done].
  unfold Num.Math_max. by rewrite Math_max_PosInf.
Qed.

(** X9.  One bad logit spoils the whole output: when any logit is [NaN] or
    [+Infinity], every element of the output of [computeSoftmax] is [NaN]. *)
Theorem computeSoftmax_poisoned (logits : list number) :
  NaN ∈ logits ∨ PosInf ∈ logits →
  computeSoftmax logits = replicate (length logits) NaN.
Proof.
  intros Hbad. apply computeSoftmax_NaN_expScore.
  destruct (NaN_elem_or_not logits) as [Hin|Hnotin].
  - by apply expScore_NaN_of_NaN.
  - destruct Hbad as [|Hinf]; [done|]. by apply expScore_NaN_of_PosInf.
Qed.

Lemma foldl_Rplus_plainExp_pos (x : R) (xs : list R) :
  0 < foldl Rplus 0 (plainExp (x :: xs)).
Proof.
  assert (Forall (λ e, 0 <= e) (plainExp (x :: xs))) as Hnn.
  { apply Forall_fmap, Forall_forall. intros y _. left. apply exp_pos. }
  pose proof (foldl_Rplus_elem _ (Rtrigo_def.exp x) Hnn) as Hle.
  pose proof (exp_pos x).
  assert (Rtrigo_def.exp x ∈ plainExp (x :: xs)) as Hin.
  { unfold plainExp. rewrite fmap_cons. apply elem_of_cons. by left. }
  specialize (Hle Hin). lra.
Qed.

Lemma expScores_of_plain (m : R) (xs : list R) :
  expScores_of m xs = (λ e, e * / Rtrigo_def.exp m) <$> plainExp xs.
Proof.
  unfold expScores_of, plainExp. rewrite <- list_fmap_compose.
  apply list_fmap_ext. intros _ x _. unfold compose.
  unfold Rminus. rewrite exp_plus, exp_Ropp. done.
Qed.

(** X10.  Subtracting the maximum changes nothing: on finite logits the output
    of [computeSoftmax] is the plain softmax, [exp x / (exp x1 + ... + exp xn)]
    for each logit [x]. *)
Theorem computeSoftmax_plain (x0 : R) (xs : list R) :
  computeSoftmax (Fin <$> x0 :: xs)
  = (λ x, Fin (Rtrigo_def.exp x / foldl Rplus 0 (plainExp (x0 :: xs))))
      <$> x0 :: xs.
Proof.
  rewrite computeSoftmax_finite. cbv zeta.
  set (m := foldl Rmax x0 xs).
  pose proof (foldl_Rplus_plainExp_pos x0 xs) as Hplain.
  pose proof (exp_pos m) as Hm.
  rewrite expScores_of_plain, foldl_Rplus_scale.
  set (sum := foldl Rplus 0 (plainExp (x0 :: xs))) in *.
  transitivity (Fin <$> ((λ e, e / sum) <$> plainExp (x0 :: xs))).
  - apply (f_equal (fmap Fin)). rewrite <- list_fmap_compose.
    apply list_fmap_ext. intros _ e _. unfold compose. field. split; lra.
  - unfold plainExp. by rewrite <- !list_fmap_compose.
Qed.

End SoftmaxMore.


Lemma computeSoftmax_poisoned_witness :
  computeSoftmax [Fin 1; NaN; Fin 3] = replicate (length [Fin 1; NaN; Fin 3]) NaN.
Proof.
  apply computeSoftmax_poisoned. left. apply list_elem_of_In. simpl. auto.
Defined.

Section SoftmaxMasked.
Local Open Scope R_scope.





End SoftmaxMasked.

(** * Further properties of the ranking *)

Lemma topPredictionsOf_eq (labels : list string) (outputData : list number) :
  topPredictionsOf labels outputData
  = predictionOf labels <$> take 10 (sortedResultsOf outputData).
Proof. done. Qed.

Lemma indexedScoresOf_indices (outputData : list number) :
  iindex <$> indexedScoresOf outputData = seq 0 (length outputData).
Proof.
  unfold indexedScoresOf, map_indexed.
  rewrite <- (length_computeSoftmax outputData).
  apply list_eq. intros i. rewrite list_lookup_fmap, list_lookup_imap.
  destruct (computeSoftmax outputData !! i) as [p|] eqn:Hp; cbn.
  - by rewrite lookup_seq_lt by (by eapply lookup_lt_Some).
  - by rewrite lookup_seq_ge by (by apply lookup_ge_None).
Qed.

Lemma elem_of_indexedScoresOf (outputData : list number) (a : IndexedScore) :
  a ∈ indexedScoresOf outputData
  ↔ computeSoftmax outputData !! iindex a = Some (iscore a).
Proof.
  unfold indexedScoresOf, map_indexed. split.
  - intros [i Ha]%list_elem_of_lookup_1.
    by apply list_lookup_imap_Some in Ha as [p [Hp ->]].
  - intros Ha. apply list_elem_of_lookup. exists (iindex a).
    rewrite list_lookup_imap, Ha. by destruct a.
Qed.

Lemma sortedResultsOf_Permutation (outputData : list number) :
  sortedResultsOf outputData ≡ₚ indexedScoresOf outputData.
Proof. apply Array_sort_Permutation. Qed.

Lemma sortedResultsOf_NoDup (outputData : list number) :
  NoDup (iindex <$> sortedResultsOf outputData).
Proof.
  rewrite sortedResultsOf_Permutation, indexedScoresOf_indices. apply NoDup_seq.
Qed.

Lemma topPredictionsOf_indices (labels : list string) (outputData : list number) :
  index <$> topPredictionsOf labels outputData
  = take 10 (iindex <$> sortedResultsOf outputData).
Proof.
  rewrite topPredictionsOf_eq, <- list_fmap_compose, fmap_take. done.
Qed.

(** X12.  Every prediction stands for one class: its score is the probability
    that softmax gives the class at its index, its label is the entry of the
    label table at that index, its index is that of a score, and no two
    predictions have the same index. *)
Theorem topPredictions_classes (labels : list string) (outputData : list number) :
  Forall (λ p, computeSoftmax outputData !! index p = Some (score p)
               ∧ label p = labels !! index p
               ∧ index p < length outputData)
         (topPredictionsOf labels outputData)
  ∧ NoDup (index <$> topPredictionsOf labels outputData).
Proof.
  split.
  - rewrite topPredictionsOf_eq. apply Forall_fmap, Forall_take, Forall_forall.
    intros a Ha. rewrite sortedResultsOf_Permutation in Ha.
    apply elem_of_indexedScoresOf in Ha. cbn. split; [done|]. split; [done|].
    rewrite <- (length_computeSoftmax outputData). by eapply lookup_lt_Some.
  - rewrite topPredictionsOf_indices.
    eapply sublist_NoDup; [apply sortedResultsOf_NoDup | apply sublist_take].
Qed.

(** X13.  With at most ten scores every class is returned, once: the indices
    of the predictions are a rearrangement of [0, ..., n-1]. *)
Theorem topPredictions_all_classes (labels : list string) (outputData : list number) :
  length outputData ≤ 10 →
  index <$> topPredictionsOf labels outputData ≡ₚ seq 0 (length outputData).
Proof.
  intros Hn. rewrite topPredictionsOf_indices, take_ge.
  - by rewrite sortedResultsOf_Permutation, indexedScoresOf_indices.
  - rewrite length_fmap. unfold sortedResultsOf, indexedScoresOf, map_indexed.
    by rewrite length_Array_sort, length_imap, length_computeSoftmax.
Qed.

Lemma topPredictions_all_classes_witness :
  index <$> topPredictionsOf ["a"; "b"; "c"] [Fin 1; Fin 2; Fin 3]
  ≡ₚ seq 0 (length [Fin 1; Fin 2; Fin 3]).
Proof. apply topPredictions_all_classes. simpl. lia. Defined.

Lemma sortedResultsOf_ranked (outputData : list number) :
  Forall Num.is_finite outputData →
  StronglySorted ranks_before (sortedResultsOf outputData).
Proof. apply sortedResults_ranked. Qed.

Section TopK.
Local Open Scope R_scope.

(** X14.  The predictions are the best: with finite logits, no class left out
    of the list has a probability above the score of a prediction in it. *)
Theorem topPredictions_are_top (labels : list string) (outputData : list number)
    (p : ImagePrediction) (i : nat) (probability : number) :
  Forall Num.is_finite outputData →
  p ∈ topPredictionsOf labels outputData →
  computeSoftmax outputData !! i = Some probability →
  i ∉ index <$> topPredictionsOf labels outputData →
  Num.ge (score p) probability.
Proof.
  intros Hfin Hp Hi Hout.
  pose proof (sortedResultsOf_ranked outputData Hfin) as Hsorted.
  rewrite <- (take_drop 10 (sortedResultsOf outputData)) in Hsorted.
  rewrite topPredictionsOf_eq in Hp. apply list_elem_of_fmap in Hp as (b & -> & Hb).
  set (a := {| iscore := probability; iindex := i |}).
  assert (a ∈ sortedResultsOf outputData) as Ha.
  { rewrite sortedResultsOf_Permutation. by apply elem_of_indexedScoresOf. }
  rewrite <- (take_drop 10 (sortedResultsOf outputData)) in Ha.
  apply elem_of_app in Ha as [Ha|Ha].
  { destruct Hout. rewrite topPredictionsOf_indices, <- fmap_take.
    apply list_elem_of_fmap. by exists a. }
  pose proof (StronglySorted_app_1_elem_of _ _ _ _ _ Hsorted Hb Ha) as Hrank.
  unfold ranks_before in Hrank. cbn [predictionOf score].
  destruct (iscore b) as [| | |x]; try done. cbn [a iscore] in Hrank.
  destruct probability as [| | |y]; try done. cbn [Num.ge].
  destruct Hrank as [?|[-> _]]; lra.
Qed.


End TopK.

(** ** Equal logits *)

Section Uniform.
Local Open Scope R_scope.

Lemma foldl_Rmax_replicate (c : R) (k : nat) : foldl Rmax c (replicate k c) = c.
Proof.
  induction k as [|k IH]; [done|]. cbn [replicate foldl].
  assert (Rmax c c = c) as -> by (unfold Rmax; by destruct (Rle_dec c c)).
  exact IH.
Qed.

Lemma foldl_Rplus_replicate_1 (a : R) (n : nat) :
  foldl Rplus a (replicate n 1) = a + INR n.
Proof.
  revert a. induction n as [|n IH]; intros a.
  - cbn. lra.
  - cbn [replicate foldl]. rewrite IH, S_INR. lra.
Qed.

Lemma computeSoftmax_replicate (c : R) (n : nat) :
  computeSoftmax (replicate n (Fin c)) = replicate n (Fin (1 / INR n)).
Proof.
  destruct n as [|k]; [done|].
  rewrite <- (fmap_replicate Fin). change (replicate (S k) c) with (c :: replicate k c).
  rewrite computeSoftmax_finite. cbv zeta. rewrite foldl_Rmax_replicate.
  change (c :: replicate k c) with (replicate (S k) c).
  unfold expScores_of. rewrite fmap_replicate, Rminus_diag, exp_0.
  rewrite foldl_Rplus_replicate_1, Rplus_0_l.
  by rewrite !fmap_replicate.
Qed.

Lemma Array_sort_ties {A} (comparefn : A → A → number) (xs : list A) :
  (∀ x y, sorts_after (comparefn x y) = false) →
  Array_sort comparefn xs = xs.
Proof.
  intros Hties. induction xs as [|x xs IH]; [done|].
  rewrite Array_sort_cons, IH. destruct xs as [|y xs]; [done|].
  cbn [sort_insert]. by rewrite Hties.
Qed.

(** With equal logits the ranking is the order of the classes: the
    predictions are the first ten classes, in order, each with score [1/n]. *)
Lemma topPredictionsOf_replicate (labels : list string) (c : R) (n : nat) :
  topPredictionsOf labels (replicate n (Fin c))
  = uniformPrediction labels n <$> seq 0 (10 `min` n).
Proof.
  rewrite topPredictionsOf_eq. unfold sortedResultsOf, indexedScoresOf, map_indexed.
  rewrite computeSoftmax_replicate.
  rewrite (imap_ext _ (λ i _, {| iscore := Fin (1 / INR n); iindex := i |}));
    last first.
  { intros i p Hp. apply lookup_replicate in Hp as [-> _]. done. }
  rewrite imap_seq_0, length_replicate.
  set (pair := λ i, {| iscore := Fin (1 / INR n); iindex := i |}).
  assert (Array_sort (λ a b, Num.sub (iscore b) (iscore a)) (pair <$> seq 0 n)
          = pair <$> seq 0 n) as ->.
  { induction (seq 0 n) as [|i l IH]; [done|].
    rewrite fmap_cons, Array_sort_cons, IH. destruct l as [|j l]; [done|].
    rewrite fmap_cons. cbn [sort_insert sorts_after pair iscore Num.sub Num.neg Num.add Num.ltb].
    destruct (Rlt_dec 0 (1 / INR n + - (1 / INR n))) as [Hlt|]; [lra|done]. }
  rewrite <- fmap_take, take_seq, <- list_fmap_compose. done.
Qed.

End Uniform.

Lemma topPredictions_are_top_witness :
  Num.ge (score (uniformPrediction [] 11 0)) (Fin (1 / INR 11)).
Proof.
  apply (topPredictions_are_top [] (replicate 11 (Fin 0))
           (uniformPrediction [] 11 0) 10 (Fin (1 / INR 11))).
  - apply Forall_replicate. exact I.
  - rewrite topPredictionsOf_replicate. apply list_elem_of_fmap.
    exists 0. split; [done|]. apply elem_of_seq. simpl. lia.
  - rewrite computeSoftmax_replicate. apply lookup_replicate_2. lia.
  - rewrite topPredictionsOf_replicate, <- list_fmap_compose.
    intros (i & -> & Hi%elem_of_seq)%list_elem_of_fmap. simpl in Hi. lia.
Defined.


(** * The component *)

Section ComponentFacts.
Context {File Session : Type}.
Variable readAsDataURL : File → option string.
Variable Jimp_read : string → outcome JimpImage.
Variable Jimp_resize : nat → nat → JimpImage → JimpImage.
Variable fetch_arrayBuffer : nat → outcome (list Z).
Variable InferenceSession_create : nat → list Z → outcome Session.
Variable Session_run : Session → list number → outcome (option OutputValue).
Variable performance_now : nat → number.
Variable labels : list string.
Variable thrown_message : nat → option string.

Local Abbreviation initializeModel' :=
  (initializeModel fetch_arrayBuffer InferenceSession_create).
Local Abbreviation runResNetModel' :=
  (runResNetModel fetch_arrayBuffer InferenceSession_create Session_run
     performance_now).
Local Abbreviation detectImage' :=
  (detectImage fetch_arrayBuffer InferenceSession_create Session_run
     performance_now labels).
Local Abbreviation preprocessImage' := (preprocessImage Jimp_read Jimp_resize).
Local Abbreviation tryRecognize' :=
  (tryRecognize readAsDataURL Jimp_read Jimp_resize fetch_arrayBuffer
     InferenceSession_create Session_run performance_now labels thrown_message).
Local Abbreviation processUploadedImage' :=
  (processUploadedImage readAsDataURL Jimp_read Jimp_resize fetch_arrayBuffer
     InferenceSession_create Session_run performance_now labels thrown_message).
Local Abbreviation handle' :=
  (handle readAsDataURL Jimp_read Jimp_resize fetch_arrayBuffer
     InferenceSession_create Session_run performance_now labels thrown_message).
Local Abbreviation session_state' :=
  (session_state readAsDataURL Jimp_read Jimp_resize fetch_arrayBuffer
     InferenceSession_create Session_run performance_now labels thrown_message).

Lemma preprocessImage_world (imageDataUrl : string) (w : World) :
  (preprocessImage' imageDataUrl w).2 = w.
Proof.
  unfold preprocessImage, mbind, M_bind, settle, mret, M_ret.
  by destruct (Jimp_read imageDataUrl).
Qed.

Lemma preprocessImage_resolves (imageDataUrl : string) (image : JimpImage)
    (w : World) :
  Jimp_read imageDataUrl = Resolved image →
  preprocessImage' imageDataUrl w
  = (Resolved (processPixels (Jimp_resize 224 224 image)), w).
Proof.
  intros Hread. unfold preprocessImage, mbind, M_bind, settle, mret, M_ret.
  by rewrite Hread.
Qed.

Lemma detectImage_keeps_cache (data : list number) (w : World) (cached : list Z) :
  cachedModelData w = Some cached →
  cachedModelData (detectImage' data w).2 = Some cached
  ∧ fetches (detectImage' data w).2 = fetches w
  ∧ (sessions (detectImage' data w).2 = cached :: sessions w).
Proof.
  intros Hc. rewrite detectImage_unfold.
  destruct (runResNetModel_cached fetch_arrayBuffer InferenceSession_create
              Session_run performance_now data (tick w) cached Hc)
    as (Hs & Hf & Hcache).
  by destruct (runResNetModel' data (tick w)) as [[[out t]|e] w2].
Qed.

Lemma initializeModel_populates (w w' : World) :
  initializeModel' w = (Resolved (), w') → is_Some (cachedModelData w').
Proof.
  rewrite initializeModel_unfold.
  destruct (getModelData_world fetch_arrayBuffer w) as (_ & _ & _ & _ & Hres & _).
  destruct (getModelData fetch_arrayBuffer w) as [[modelData|e] w1];
    cbn [fst snd] in *; [|done].
  specialize (Hres modelData eq_refl).
  rewrite (createModelSession_cached _ _ w1 modelData Hres).
  destruct (InferenceSession_create (length (sessions w1)) modelData); [|done].
  intros [= <-]. by exists modelData.
Qed.

(** What the [try] block leaves, whatever happens in it. *)
Lemma tryRecognize_frame (file : File) (modelInitialized : bool)
    (s : ComponentState File) (w : World) :
  let '(caught, s2, w2) := tryRecognize' file modelInitialized s w in
  st_loading s2 = st_loading s
  ∧ st_error s2 = st_error s
  ∧ st_uploadedImage s2 = st_uploadedImage s
  ∧ st_imagePreview s2 = st_imagePreview s
  ∧ (is_Some caught → st_result s2 = st_result s)
  ∧ (st_modelInitialized s = modelInitialized →
     (modelInitialized = true → is_Some (cachedModelData w)) →
     st_modelInitialized s2 = true → is_Some (cachedModelData w2)).
Proof.
  unfold tryRecognize.
  destruct modelInitialized.
  - destruct (readAsDataURL file) as [url|].
    + pose proof (preprocessImage_world url w) as Hw.
      destruct (preprocessImage' url w) as [[data|e] w1]; cbn [snd] in Hw; subst w1.
      * destruct (detectImage' data w) as [[r|e] w2] eqn:Hdet; cbn;
          repeat split; try done; try (by intros [? [=]]);
          intros _ Hc _; destruct (Hc eq_refl) as [cached Hcached];
          destruct (detectImage_keeps_cache data w cached Hcached) as (Hk & _);
          rewrite Hdet in Hk; by exists cached.
      * cbn; repeat split; try done; auto.
    + cbn; repeat split; try done; auto.
  - destruct (initializeModel' w) as [[[]|e] w0] eqn:Hinit.
    + pose proof (initializeModel_populates w w0 Hinit) as [cached Hcached].
      destruct (readAsDataURL file) as [url|].
      * pose proof (preprocessImage_world url w0) as Hw.
        destruct (preprocessImage' url w0) as [[data|e] w1]; cbn [snd] in Hw; subst w1.
        -- destruct (detectImage_keeps_cache data w0 cached Hcached) as (Hk & _).
           destruct (detectImage' data w0) as [[r|e] w2]; cbn in *;
             repeat split; try done; try (by intros [? [=]]);
             intros; by exists cached.
        -- cbn; repeat split; try done; intros; by exists cached.
      * cbn; repeat split; try done; intros; by exists cached.
    + cbn; repeat split; try done; by intros -> _ [=].
Qed.

Lemma handle_keeps_initialised_cache (ev : event) (s : ComponentState File)
    (w : World) :
  (st_modelInitialized s = true → is_Some (cachedModelData w)) →
  st_modelInitialized (handle' ev (s, w)).1 = true →
  is_Some (cachedModelData (handle' ev (s, w)).2).
Proof.
  intros Hinit. destruct ev as [file|]; cbn [handle fst snd].
  - unfold handleFileUpload. by destruct file.
  - unfold processUploadedImage. destruct (st_uploadedImage s) as [file|]; [|done].
    pose proof (tryRecognize_frame file (st_modelInitialized s)
                  (setResult None (setError None (setLoading true s))) w) as Hframe.
    destruct (tryRecognize' file (st_modelInitialized s) _ w) as [[caught s2] w2].
    destruct Hframe as (_ & _ & _ & _ & _ & Hcache). cbn [fst snd].
    intros Hmi. apply Hcache; [done|done|]. by destruct caught.
Qed.

Lemma session_settled_cache (s : ComponentState File) (w : World) :
  session_state' (s, w) → st_modelInitialized s = true →
  is_Some (cachedModelData w).
Proof.
  intros Hsession. remember (s, w) as sw eqn:Hsw. revert s w Hsw.
  induction Hsession as [|ev [s0 w0] _ IH]; intros s w Hsw.
  - by injection Hsw as <- <-.
  - intros Hmi.
    pose proof (handle_keeps_initialised_cache ev s0 w0 (IH s0 w0 eq_refl)) as Hk.
    rewrite Hsw in Hk. by apply Hk.
Qed.

(** X16.  Between two events the component is settled: it is not loading; it
    shows a result only without an error and with a file chosen; and when it
    holds the model to be initialised, the model bytes are in the cache. *)
Theorem session_settled (sw : ComponentState File * World) :
  session_state' sw → settled sw.
Proof.
  induction 1 as [|ev [s w] _ (Hload & Hres & Hinit)].
  { unfold settled. cbn. split; [done|]. split; [by intros [? [=]] | done]. }
  cbn [fst snd] in *. destruct ev as [file|]; cbn [handle fst snd].
  - unfold handleFileUpload, settled. destruct file; cbn; repeat split; try done;
      by intros [? [=]].
  - unfold processUploadedImage. destruct (st_uploadedImage s) as [file|] eqn:Hfile.
    + pose proof (tryRecognize_frame file (st_modelInitialized s)
                    (setResult None (setError None (setLoading true s))) w) as Hframe.
      destruct (tryRecognize' file (st_modelInitialized s) _ w) as [[caught s2] w2].
      destruct Hframe as (_ & Herr & Hup & _ & Hcaught & Hcache).
      unfold settled. cbn [fst snd]. split; [by destruct caught|]. split.
      * destruct caught as [message|]; cbn.
        -- rewrite (Hcaught (mk_is_Some _ _ eq_refl)). by intros [? [=]].
        -- intros _. rewrite Herr, Hup. cbn. by rewrite Hfile.
      * intros Hmi. apply Hcache; [done|done|]. by destruct caught.
    + unfold settled. cbn. split; [done|]. split; [|done].
      intros Hsome. destruct (Hres Hsome) as [_ [? [=]]].
Qed.

(** X17.  Once the component holds the model to be initialised, pressing the
    button fetches nothing and leaves the cached bytes as they are. *)
Theorem initialised_never_fetches (s : ComponentState File) (w : World) :
  session_state' (s, w) → st_modelInitialized s = true →
  fetches (processUploadedImage' s w).2 = fetches w
  ∧ cachedModelData (processUploadedImage' s w).2 = cachedModelData w.
Proof.
  intros Hsession Hmi.
  destruct (session_settled_cache s w) as [cached Hcached]; [done..|].
  unfold processUploadedImage. destruct (st_uploadedImage s) as [file|]; [|done].
  unfold tryRecognize. rewrite Hmi.
  destruct (readAsDataURL file) as [url|]; [|done].
  pose proof (preprocessImage_world url w) as Hw.
  destruct (preprocessImage' url w) as [[data|e] w1]; cbn [snd] in Hw; subst w1;
    [|done].
  destruct (detectImage_keeps_cache data w cached Hcached) as (Hk & Hf & _).
  destruct (detectImage' data w) as [[r|e] w2]; cbn [snd] in *; by rewrite Hk, Hf.
Qed.


(** X19.  A failed initialisation is reported and retried: when
    [initializeModel] is rejected, the component shows the message of the
    error, no result, and still holds the model not to be initialised, so that
    the next press initialises again. *)
Theorem initialisation_failure_reported (s : ComponentState File) (w w0 : World)
    (file : File) (e : error) :
  st_uploadedImage s = Some file →
  st_modelInitialized s = false →
  initializeModel' w = (Rejected e, w0) →
  let s' := (processUploadedImage' s w).1 in
  st_error s' = Some (messageOf thrown_message e)
  ∧ st_result s' = None
  ∧ st_modelInitialized s' = false
  ∧ st_loading s' = false
  ∧ (processUploadedImage' s w).2 = w0.
Proof.
  intros Hfile Hmi Hinit s'. subst s'.
  unfold processUploadedImage, tryRecognize. rewrite Hfile, Hmi, Hinit. cbn.
  by rewrite Hmi.
Qed.

(** X20.  An image that cannot be decoded is found out only after the model
    has been initialised: on a first press with such a file the model is
    fetched and a session created, the component then holds the model to be
    initialised, shows the message of the decoding error and no result, and no
    inference is run. *)
Theorem undecodable_image_reported (s : ComponentState File) (w w0 : World)
    (file : File) (imageDataUrl : string) (e : error) :
  st_uploadedImage s = Some file →
  st_modelInitialized s = false →
  initializeModel' w = (Resolved (), w0) →
  readAsDataURL file = Some imageDataUrl →
  Jimp_read imageDataUrl = Rejected e →
  let s' := (processUploadedImage' s w).1 in
  st_error s' = Some (messageOf thrown_message e)
  ∧ st_result s' = None
  ∧ st_modelInitialized s' = true
  ∧ st_loading s' = false
  ∧ (processUploadedImage' s w).2 = w0.
Proof.
  intros Hfile Hmi Hinit Hread Hdecode s'. subst s'.
  unfold processUploadedImage, tryRecognize. rewrite Hfile, Hmi, Hinit, Hread.
  unfold preprocessImage, mbind, M_bind, settle. rewrite Hdecode. done.
Qed.

Lemma initializeModel_session (w w' : World) :
  initializeModel' w = (Resolved (), w') →
  ∃ modelData,
    cachedModelData w' = Some modelData ∧ sessions w' = modelData :: sessions w.
Proof.
  rewrite initializeModel_unfold.
  destruct (getModelData_world fetch_arrayBuffer w) as (Hs & _ & _ & _ & Hres & _).
  destruct (getModelData fetch_arrayBuffer w) as [[modelData|e] w1];
    cbn [fst snd] in *; [|done].
  specialize (Hres modelData eq_refl).
  rewrite (createModelSession_cached _ _ w1 modelData Hres).
  destruct (InferenceSession_create (length (sessions w1)) modelData); [|done].
  intros [= <-]. exists modelData. cbn. by rewrite Hs.
Qed.

(** X21.  A first press that goes through creates two sessions from the same
    bytes, one by [initializeModel], which drops it, and one by the inference
    call; the component then shows what [detectImage] resolved to, without an
    error, and holds the model to be initialised. *)
Theorem first_press_creates_two_sessions (s : ComponentState File) (w w0 : World)
    (file : File) (imageDataUrl : string) (image : JimpImage) :
  st_uploadedImage s = Some file →
  st_modelInitialized s = false →
  initializeModel' w = (Resolved (), w0) →
  readAsDataURL file = Some imageDataUrl →
  Jimp_read imageDataUrl = Resolved image →
  ∃ modelData detectionResult w',
    detectImage' (processPixels (Jimp_resize 224 224 image)) w0
      = (Resolved detectionResult, w')
    ∧ (processUploadedImage' s w).2 = w'
    ∧ sessions w' = modelData :: modelData :: sessions w
    ∧ st_result (processUploadedImage' s w).1 = detectionResult
    ∧ st_error (processUploadedImage' s w).1 = None
    ∧ st_modelInitialized (processUploadedImage' s w).1 = true.
Proof.
  intros Hfile Hmi Hinit Hread Hdecode.
  destruct (initializeModel_session w w0 Hinit) as (modelData & Hcached & Hsessions).
  destruct (detectImage_keeps_cache (processPixels (Jimp_resize 224 224 image))
              w0 modelData Hcached) as (_ & _ & Hs).
  unfold processUploadedImage, tryRecognize. rewrite Hfile, Hmi, Hinit, Hread.
  rewrite (preprocessImage_resolves imageDataUrl image w0 Hdecode). revert Hs.
  generalize (processPixels (Jimp_resize 224 224 image)). intros data Hs.
  destruct (detectImage' data w0) as [[r|e] w2] eqn:Hdet; cbn [snd] in Hs.
  - exists modelData, r, w2. cbn. by rewrite Hs, Hsessions.
  - rewrite detectImage_unfold in Hdet.
    by destruct (runResNetModel' data (tick w0)) as [[[out t]|e'] w3].
Qed.

End ComponentFacts.

(** *** The same on the sample collaborators *)

Lemma session_settled_witness :
  settled
    (handle SampleUI.readAsDataURL SampleUI.read Sample.resize SampleModel.fetch
       SampleModel.create (SampleModel.run [Fin 1; Fin 2]) SampleModel.clock
       ["a"; "b"] SampleUI.message ClickAnalyze
       (SampleUI.chosen "red", initial_world)).
Proof.
  apply (session_settled SampleUI.readAsDataURL SampleUI.read Sample.resize
           SampleModel.fetch SampleModel.create (SampleModel.run [Fin 1; Fin 2])
           SampleModel.clock ["a"; "b"] SampleUI.message).
  apply session_event.
  apply (session_event _ _ _ _ _ _ _ _ _ (SelectFile (Some "red"))
           (initial_state, initial_world)).
  apply session_start.
Defined.


Lemma initialisation_failure_reported_witness :
  let s' := (processUploadedImage SampleUI.readAsDataURL SampleUI.read
               Sample.resize SampleFaults.failing_fetch SampleModel.create
               (SampleModel.run []) SampleModel.clock [] SampleUI.message
               (SampleUI.chosen "red") initial_world).1 in
  st_error s' = Some (messageOf SampleUI.message (Thrown 2))
  ∧ st_result s' = None
  ∧ st_modelInitialized s' = false
  ∧ st_loading s' = false
  ∧ (processUploadedImage SampleUI.readAsDataURL SampleUI.read
       Sample.resize SampleFaults.failing_fetch SampleModel.create
       (SampleModel.run []) SampleModel.clock [] SampleUI.message
       (SampleUI.chosen "red") initial_world).2
    = {| cachedModelData := None; fetches := 1; sessions := []; clock_reads := 0 |}.
Proof.
  apply (initialisation_failure_reported SampleUI.readAsDataURL SampleUI.read
           Sample.resize SampleFaults.failing_fetch SampleModel.create
           (SampleModel.run []) SampleModel.clock [] SampleUI.message
           (SampleUI.chosen "red") initial_world _ "red" (Thrown 2)); reflexivity.
Defined.

Lemma undecodable_image_reported_witness :
  let s' := (processUploadedImage SampleUI.readAsDataURL SampleUI.read
               Sample.resize SampleModel.fetch SampleModel.create
               (SampleModel.run []) SampleModel.clock [] SampleUI.message
               (SampleUI.chosen "text") initial_world).1 in
  st_error s' = Some (messageOf SampleUI.message (Thrown 1))
  ∧ st_result s' = None
  ∧ st_modelInitialized s' = true
  ∧ st_loading s' = false
  ∧ (processUploadedImage SampleUI.readAsDataURL SampleUI.read
       Sample.resize SampleModel.fetch SampleModel.create
       (SampleModel.run []) SampleModel.clock [] SampleUI.message
       (SampleUI.chosen "text") initial_world).2
    = {| cachedModelData := Some SampleModel.model_bytes; fetches := 1;
         sessions := [SampleModel.model_bytes]; clock_reads := 0 |}.
Proof.
  apply (undecodable_image_reported SampleUI.readAsDataURL SampleUI.read
           Sample.resize SampleModel.fetch SampleModel.create
           (SampleModel.run []) SampleModel.clock [] SampleUI.message
           (SampleUI.chosen "text") initial_world _ "text" "text" (Thrown 1));
    reflexivity.
Defined.

Lemma initialised_never_fetches_witness :
  let press := processUploadedImage SampleUI.readAsDataURL SampleUI.read
                 Sample.resize SampleModel.fetch SampleModel.create
                 (SampleModel.run [Fin 1; Fin 2]) SampleModel.clock ["a"; "b"]
                 SampleUI.message in
  let sw := press (SampleUI.chosen "red") initial_world in
  fetches (press sw.1 sw.2).2 = fetches sw.2
  ∧ cachedModelData (press sw.1 sw.2).2 = cachedModelData sw.2.
Proof.
  intros press sw.
  apply (initialised_never_fetches SampleUI.readAsDataURL SampleUI.read
           Sample.resize SampleModel.fetch SampleModel.create
           (SampleModel.run [Fin 1; Fin 2]) SampleModel.clock ["a"; "b"]
           SampleUI.message sw.1 sw.2).
  - change (session_state SampleUI.readAsDataURL SampleUI.read
              Sample.resize SampleModel.fetch SampleModel.create
              (SampleModel.run [Fin 1; Fin 2]) SampleModel.clock ["a"; "b"]
              SampleUI.message
              (handle SampleUI.readAsDataURL SampleUI.read
                 Sample.resize SampleModel.fetch SampleModel.create
                 (SampleModel.run [Fin 1; Fin 2]) SampleModel.clock ["a"; "b"]
                 SampleUI.message ClickAnalyze
                 (handle SampleUI.readAsDataURL SampleUI.read
                    Sample.resize SampleModel.fetch SampleModel.create
                    (SampleModel.run [Fin 1; Fin 2]) SampleModel.clock ["a"; "b"]
                    SampleUI.message (SelectFile (Some "red"))
                    (initial_state, initial_world)))).
    apply session_event, session_event, session_start.
  - reflexivity.
Defined.

Lemma first_press_creates_two_sessions_witness :
  let press := processUploadedImage SampleUI.readAsDataURL SampleUI.read
                 Sample.resize SampleModel.fetch SampleModel.create
                 (SampleModel.run [Fin 1; Fin 2]) SampleModel.clock ["a"; "b"]
                 SampleUI.message in
  let s := SampleUI.chosen "red" in
  let w0 := {| cachedModelData := Some SampleModel.model_bytes; fetches := 1;
               sessions := [SampleModel.model_bytes]; clock_reads := 0 |} in
  ∃ modelData detectionResult w',
    detectImage SampleModel.fetch SampleModel.create
      (SampleModel.run [Fin 1; Fin 2]) SampleModel.clock ["a"; "b"]
      (processPixels (Sample.resize 224 224 opaque_red)) w0
      = (Resolved detectionResult, w')
    ∧ (press s initial_world).2 = w'
    ∧ sessions w' = modelData :: modelData :: sessions initial_world
    ∧ st_result (press s initial_world).1 = detectionResult
    ∧ st_error (press s initial_world).1 = None
    ∧ st_modelInitialized (press s initial_world).1 = true.
Proof.
  intros press s w0.
  apply (first_press_creates_two_sessions SampleUI.readAsDataURL SampleUI.read
           Sample.resize SampleModel.fetch SampleModel.create
           (SampleModel.run [Fin 1; Fin 2]) SampleModel.clock ["a"; "b"]
           SampleUI.message s initial_world w0 "red" "red" opaque_red);
    reflexivity.
Defined.

(** * The range of the tensor *)






